(** * A shallow embedding of the tetris engine (tetris.cpp)

    The development follows the source file top-down: machine integers,
    [Color], the seven shape structs, [Block] / [BlockImpl], the random
    generator, [BlockMap], [TryBlockAction] and one iteration of
    [TetrisApp::run].  Reads and writes that the C++ program performs
    outside an array or a vector have no defined result, and a loop whose
    exit test always holds does not return; the embedding answers [None]
    in both cases. *)

From Stdlib Require Import ZArith Lia Ascii String.
From stdpp Require Import base option numbers list list_numbers.

Local Open Scope Z_scope.

(** ** Machine integers

    [int] is 32 bits wide and [size_t] 64 bits wide.  Values are carried in
    [Z]; every conversion the source performs between the two types is
    written out with [to_int] and [to_size_t].  Signed arithmetic is done in
    [Z]: it is the program's arithmetic wherever no [int] overflows, which
    [Block.no_overflow] states for the range of a block. *)
Module Int.

Definition INT_MIN : Z := - 2 ^ 31.
Definition INT_MAX : Z := 2 ^ 31 - 1.
Definition SIZE_MAX : Z := 2 ^ 64 - 1.

(** Conversion to [size_t]: reduction modulo 2^64. *)
Definition to_size_t (z : Z) : Z := z `mod` 2 ^ 64.

(** Conversion to [int]: the value congruent modulo 2^32 in the range
    [INT_MIN .. INT_MAX]. *)
Definition to_int (z : Z) : Z := (z + 2 ^ 31) `mod` 2 ^ 32 - 2 ^ 31.

(** The values of [int]. *)
Definition in_int (z : Z) : Prop := INT_MIN <= z <= INT_MAX.

End Int.

(** ** enum class Color *)
Inductive Color : Set :=
  | BLACK | RED | GREEN | ORANGE | BLUE | PURPLE | LIGHT_BLUE | WHITE.

#[global] Instance Color_eq_dec : EqDecision Color.
Proof. solve_decision. Defined.

(** The underlying [char] value of a colour (BLACK = 0, then counting up). *)
Definition Color_to_int (c : Color) : Z :=
  match c with
  | BLACK => 0 | RED => 1 | GREEN => 2 | ORANGE => 3
  | BLUE => 4 | PURPLE => 5 | LIGHT_BLUE => 6 | WHITE => 7
  end.

(** ** The shape structs BlockShape0 .. BlockShape6

    Each struct carries the constants W, H, SHAPE and COL.  The structs are
    the only template arguments [BlockImpl] is instantiated with, so a
    shape is a tag of a closed enumeration. *)
Inductive ShapeId : Set :=
  | BlockShape0 | BlockShape1 | BlockShape2 | BlockShape3
  | BlockShape4 | BlockShape5 | BlockShape6.

#[global] Instance ShapeId_eq_dec : EqDecision ShapeId.
Proof. solve_decision. Defined.

Module Shape.

Definition W (s : ShapeId) : Z :=
  match s with
  | BlockShape0 => 4
  | BlockShape3 => 2
  | _ => 3
  end.

Definition H (s : ShapeId) : Z :=
  match s with
  | BlockShape0 => 4
  | BlockShape3 => 2
  | _ => 3
  end.

(** [SHAPE[H][W]], an array of [char]. *)
Definition SHAPE (s : ShapeId) : list (list Z) :=
  match s with
  | BlockShape0 => [ [0; 0; 0; 0];
                     [1; 1; 1; 1];
                     [0; 0; 0; 0];
                     [0; 0; 0; 0] ]
  | BlockShape1 => [ [1; 0; 0];
                     [1; 1; 1];
                     [0; 0; 0] ]
  | BlockShape2 => [ [0; 0; 1];
                     [1; 1; 1];
                     [0; 0; 0] ]
  | BlockShape3 => [ [1; 1];
                     [1; 1] ]
  | BlockShape4 => [ [0; 1; 1];
                     [1; 1; 0];
                     [0; 0; 0] ]
  | BlockShape5 => [ [0; 1; 0];
                     [1; 1; 1];
                     [0; 0; 0] ]
  | BlockShape6 => [ [1; 1; 0];
                     [0; 1; 1];
                     [0; 0; 0] ]
  end.

Definition COL (s : ShapeId) : Color :=
  match s with
  | BlockShape0 => LIGHT_BLUE
  | BlockShape1 => BLUE
  | BlockShape2 => ORANGE
  | BlockShape3 => WHITE
  | BlockShape4 => GREEN
  | BlockShape5 => PURPLE
  | BlockShape6 => RED
  end.

(** The read [SHAPE[i][j]] converted to [bool].  An index outside the array
    has no defined result. *)
Definition at_ (s : ShapeId) (i j : Z) : option bool :=
  if (i <? 0) || (j <? 0) then None
  else
    row ← SHAPE s !! Z.to_nat i;
    c ← row !! Z.to_nat j;
    Some (negb (c =? 0)).

End Shape.

(** ** class Block and template class BlockImpl *)
Inductive Rot : Set := ROT0 | ROT90 | ROT180 | ROT270.

#[global] Instance Rot_eq_dec : EqDecision Rot.
Proof. solve_decision. Defined.

Definition Rot_to_int (r : Rot) : Z :=
  match r with ROT0 => 0 | ROT90 => 1 | ROT180 => 2 | ROT270 => 3 end.

(** [static_cast<Rot>] of an [int]; the source only casts values 0..3. *)
Definition Rot_of_int (z : Z) : Rot :=
  match z with 0 => ROT0 | 1 => ROT90 | 2 => ROT180 | _ => ROT270 end.

(** A block object: its dynamic type (the shape it was instantiated with)
    and the three data members of [Block]. *)
Record Block : Set := mkBlock {
  shape : ShapeId;
  m_x : Z;
  m_y : Z;
  m_rot : Rot;
}.

#[global] Instance Block_eq_dec : EqDecision Block.
Proof. solve_decision. Defined.

(** The out-parameters of [getRange]. *)
Record Range : Set := mkRange { sx : Z; sy : Z; ex : Z; ey : Z }.

Module Block.

Definition setPos (b : Block) (x y : Z) : Block :=
  {| shape := shape b; m_x := x; m_y := y; m_rot := m_rot b |}.

(** The two sums are those of the program as long as they stay inside
    [int]; the statements about [move] assume it through [no_overflow] of
    the moved block. *)
Definition move (b : Block) (dx dy : Z) : Block :=
  setPos b (m_x b + dx) (m_y b + dy).

Definition rotate (b : Block) : Block :=
  {| shape := shape b; m_x := m_x b; m_y := m_y b;
     m_rot := Rot_of_int ((Rot_to_int (m_rot b) + 1) `rem` 4) |}.

(** [clone] copy-constructs the object: value semantics. *)
Definition clone (b : Block) : Block := b.

(** [Block::operator=], as used by [block = *block_tmp]: the members of the
    base class are copied, the dynamic type of the target stays. *)
Definition assign (b src : Block) : Block :=
  {| shape := shape b; m_x := m_x src; m_y := m_y src; m_rot := m_rot src |}.

Definition W_L (s : ShapeId) : Z := Shape.W s `quot` 2.
Definition W_R (s : ShapeId) : Z := Shape.W s - W_L s.
Definition H_L (s : ShapeId) : Z := Shape.H s `quot` 2.
Definition H_R (s : ShapeId) : Z := Shape.H s - H_L s.

Definition getRange (b : Block) : Range :=
  let s := shape b in
  let sx0 := - W_L s in
  let sy0 := - H_L s in
  let ex0 := W_R s - 1 in
  let ey0 := H_R s - 1 in
  match m_rot b with
  | ROT0 | ROT180 =>
      {| sx := m_x b + sx0; sy := m_y b + sy0;
         ex := m_x b + ex0; ey := m_y b + ey0 |}
  | _ =>
      {| sx := m_x b + sy0; sy := m_y b + sx0;
         ex := m_x b + ey0; ey := m_y b + ex0 |}
  end.

(** The pair (row index, column index) at which [exist] reads SHAPE. *)
Definition exist_idx (b : Block) (x y : Z) : Z * Z :=
  let s := shape b in
  let x0_idx := x - (m_x b - W_L s) in
  let y0_idx := y - (m_y b - H_L s) in
  match m_rot b with
  | ROT0 => (y0_idx, x0_idx)
  | ROT90 => (x0_idx, Shape.H s - y0_idx - 1)
  | ROT180 => (Shape.H s - y0_idx - 1, Shape.W s - x0_idx - 1)
  | ROT270 => (Shape.W s - x0_idx - 1, y0_idx)
  end.

Definition exist (b : Block) (x y : Z) : option bool :=
  Shape.at_ (shape b) (exist_idx b x y).1 (exist_idx b x y).2.

Definition getColor (b : Block) : Color := Shape.COL (shape b).

(** Membership of a cell in a range (both ends inclusive). *)
Definition in_range (r : Range) (x y : Z) : Prop :=
  sx r <= x <= ex r /\ sy r <= y <= ey r.

(** The signed arithmetic of [getRange], and the increments of the loops
    that walk the range, stay inside [int]. *)
Definition no_overflow (b : Block) : Prop :=
  Int.INT_MIN <= sx (getRange b) /\ Int.INT_MIN <= sy (getRange b) /\
  ex (getRange b) < Int.INT_MAX /\ ey (getRange b) < Int.INT_MAX.

End Block.

(** ** Loops

    [for_each xs body s] runs [body] for the indices [xs] in order, threading
    the state; it stops with [None] as soon as one step has no defined
    result.  [all_cells check xs] is a loop that leaves with [false] at the
    first index whose check fails (a [return false] or a [break]). *)
Fixpoint for_each {S : Type} (xs : list Z) (body : Z -> S -> option S)
    (s : S) : option S :=
  match xs with
  | [] => Some s
  | x :: xs' => s' ← body x s; for_each xs' body s'
  end.

Fixpoint all_cells (check : Z -> option bool) (xs : list Z) : option bool :=
  match xs with
  | [] => Some true
  | x :: xs' => r ← check x; if r : bool then all_cells check xs' else Some false
  end.

(** [for (int i = lo; i <= hi; i++)]; the counter is the program's as long
    as [hi] is below INT_MAX, so that the last increment stays inside
    [int]. *)
Definition int_range (lo hi : Z) : list Z := seqZ lo (hi - lo + 1).

(** [for (size_t i = lo; i <= hi; i++)] where [lo] and [hi] are [int]s: both
    are converted to [size_t].  When [hi] converts to SIZE_MAX the
    comparison always holds and the loop has no exit. *)
Definition size_range (lo hi : Z) : option (list Z) :=
  let lo' := Int.to_size_t lo in
  let hi' := Int.to_size_t hi in
  if hi' =? Int.SIZE_MAX then None else Some (seqZ lo' (hi' - lo' + 1)).

(** [for (size_t i = 0; i < n; i++)] *)
Definition upto (n : Z) : list Z := seqZ 0 n.

(** [for (size_t i = hi; 1 <= i; i--)] *)
Definition downto_1 (hi : Z) : list Z := reverse (seqZ 1 hi).

(** [for (int i = hi; 0 <= i; i--)] *)
Definition downto_0 (hi : Z) : list Z := reverse (seqZ 0 (hi + 1)).

(** ** class RandomBlockGenerator

    The generator is built with the default position; [operator()] draws
    one value [v] from the Mersenne twister, whose outputs range over
    0 .. 2^32 - 1. *)
Module RandomBlockGenerator.

Record t : Set := mk { m_x : Z; m_y : Z }.

Definition MT_RANGE : Z := 2 ^ 32.

(** [const int idx = m_mt() % 7;] *)
Definition idx (v : Z) : Z := Int.to_int (v `mod` 7).

Definition call (g : t) (v : Z) : option Block :=
  let idx := idx v in
  s ← (if idx =? 0 then Some BlockShape0
       else if idx =? 1 then Some BlockShape1
       else if idx =? 2 then Some BlockShape2
       else if idx =? 3 then Some BlockShape3
       else if idx =? 4 then Some BlockShape4
       else if idx =? 5 then Some BlockShape5
       else if idx =? 6 then Some BlockShape6
       else None);
  Some (Block.setPos (mkBlock s 0 0 ROT0) (m_x g) (m_y g)).

(** The number of generator outputs below [bound] that select shape [r]. *)
Definition preimages (bound r : Z) : nat :=
  length (filter (fun v => idx v = r) (upto bound)).

End RandomBlockGenerator.

(** ** class BlockMap *)
Record BlockMap : Set := mkBlockMap {
  m_w : Z;
  m_h : Z;
  m_blocks : list Color;
}.

Module BlockMap.

(** [BlockMap(size_t w, size_t h)] *)
Definition make (w h : Z) : BlockMap :=
  {| m_w := w; m_h := h;
     m_blocks := replicate (Z.to_nat (Int.to_size_t (w * h))) BLACK |}.

(** The subscript [y * m_w + x] of [get(int x, int y)], computed in
    [size_t]. *)
Definition index (m : BlockMap) (x y : Z) : Z :=
  Int.to_size_t (Int.to_size_t (Int.to_size_t y * m_w m) + Int.to_size_t x).

(** Reading through [get]. *)
Definition get (m : BlockMap) (x y : Z) : option Color :=
  m_blocks m !! Z.to_nat (index m x y).

(** Writing through the reference returned by [get]: [get(x, y) = c]. *)
Definition set (m : BlockMap) (x y : Z) (c : Color) : option BlockMap :=
  let i := Z.to_nat (index m x y) in
  if decide (i < length (m_blocks m))%nat
  then Some {| m_w := m_w m; m_h := m_h m; m_blocks := <[i := c]> (m_blocks m) |}
  else None.

Definition exist (m : BlockMap) (x y : Z) : option bool :=
  c ← get m x y; Some (negb (Color_to_int c =? 0)).

(** The body of the inner loop of [isPuttable] at cell (x, y): [Some true]
    when the loop goes on, [Some false] when it returns false. *)
Definition check_cell (m : BlockMap) (b : Block) (x y : Z) : option bool :=
  e ← Block.exist b x y;
  if negb e then Some true
  else if y <? 0 then Some true
  else if (x <? 0) || (m_w m <=? Int.to_size_t x) || (m_h m <=? Int.to_size_t y)
  then Some false
  else o ← exist m x y; Some (negb o).

Definition isPuttable (m : BlockMap) (b : Block) : option bool :=
  let r := Block.getRange b in
  all_cells
    (fun y => all_cells (fun x => check_cell m b x y) (int_range (sx r) (ex r)))
    (int_range (sy r) (ey r)).

(** The body of the inner loop of [putBlock]; [x] and [y] are [size_t]
    and are passed to parameters of type [int]. *)
Definition put_cell (b : Block) (col : Color) (x y : Z) (m : BlockMap)
    : option BlockMap :=
  e ← Block.exist b (Int.to_int x) (Int.to_int y);
  if e : bool then set m (Int.to_int x) (Int.to_int y) col else Some m.

Definition putBlock (m : BlockMap) (b : Block) : option BlockMap :=
  let r := Block.getRange b in
  let sx := Z.max 0 (sx r) in
  let sy := Z.max 0 (sy r) in
  let ex := Z.min (Int.to_int (m_w m)) (ex r) in
  let ey := Z.min (Int.to_int (m_h m)) (ey r) in
  let col := Block.getColor b in
  ys ← size_range sy ey;
  for_each ys
    (fun y m => xs ← size_range sx ex; for_each xs (fun x => put_cell b col x y) m)
    m.

(** The test of one line in [eraseFilledLines]. *)
Definition is_filled (m : BlockMap) (y : Z) : option bool :=
  all_cells
    (fun x => c ← get m (Int.to_int x) y; Some (negb (bool_decide (c = BLACK))))
    (upto (m_w m)).

(** The innermost loop of "Shift" in [eraseFilledLines]: line [yy - 1] is
    copied into line [yy]. *)
Definition copy_line (w yy : Z) (m : BlockMap) : option BlockMap :=
  for_each (upto w)
    (fun x m =>
       c ← get m (Int.to_int x) (Int.to_int (Int.to_size_t (yy - 1)));
       set m (Int.to_int x) (Int.to_int yy) c) m.

(** The "Last line" loop. *)
Definition clear_top_line (w : Z) (m : BlockMap) : option BlockMap :=
  for_each (upto w) (fun x m => set m (Int.to_int x) 0 BLACK) m.

(** "Shift" and "Last line" for the filled line [y]. *)
Definition shift (m : BlockMap) (y : Z) : option BlockMap :=
  m' ← for_each (downto_1 (Int.to_size_t y)) (copy_line (m_w m)) m;
  clear_top_line (m_w m) m'.

(** The body of the outer loop, on the pair of the map and
    [n_erased_lines]. *)
Definition erase_step (y : Z) (st : BlockMap * Z) : option (BlockMap * Z) :=
  is_filled ← is_filled st.1 y;
  if is_filled : bool
  then m' ← shift st.1 y; Some (m', st.2 + 1)
  else Some st.

Definition eraseFilledLines (m : BlockMap) : option (BlockMap * Z) :=
  for_each (downto_0 (Int.to_int (Int.to_size_t (m_h m - 1)))) erase_step (m, 0).

(** A map as the constructor builds it for dimensions that fit [int]:
    one colour per cell. *)
Definition wf (m : BlockMap) : Prop :=
  0 <= m_w m <= Int.INT_MAX /\ 0 <= m_h m <= Int.INT_MAX /\
  length (m_blocks m) = Z.to_nat (m_w m * m_h m).

(** Line [y] holds no BLACK cell. *)
Definition filled_line (m : BlockMap) (y : Z) : Prop :=
  forall x, 0 <= x < m_w m -> exists c, get m x y = Some c /\ c <> BLACK.

(** Line [y] holds at least one BLACK cell. *)
Definition open_line (m : BlockMap) (y : Z) : Prop :=
  exists x, 0 <= x < m_w m /\ get m x y = Some BLACK.

End BlockMap.

(** ** TryBlockAction

    The member-function pointer and its arguments: the program passes
    [&Block::rotate] and [&Block::move] with two offsets. *)
Inductive Action : Set :=
  | Rotate
  | Move (dx dy : Z).

Definition invoke (a : Action) (b : Block) : Block :=
  match a with
  | Rotate => Block.rotate b
  | Move dx dy => Block.move b dx dy
  end.

(** The result is the returned flag together with the two objects passed by
    reference, [block] and [block_map], as the call leaves them. *)
Definition TryBlockAction (block : Block) (block_map : BlockMap) (a : Action)
    : option (bool * Block * BlockMap) :=
  let block_tmp := Block.clone block in
  let block_tmp := invoke a block_tmp in
  p ← BlockMap.isPuttable block_map block_tmp;
  if p : bool
  then Some (true, Block.assign block block_tmp, block_map)
  else Some (false, block, block_map).

(** ** class TetrisApp

    One iteration of the loop of [run].  The clock, the random generator and
    the terminal are outside the program: what they answer during the
    iteration is an input. *)
Module TetrisApp.

Record State : Set := mkState {
  m_block_map : BlockMap;
  m_rand_block_gen : RandomBlockGenerator.t;
  n_erased_lines : Z;
  next_block : bool;
  block : Block;
}.

Record Inputs : Set := mkInputs {
  mt_value : Z;             (* the value [m_mt()] yields, if it is called *)
  should_happen : bool;     (* [m_event_clock.shouldHappen()] *)
  key : option ascii;       (* [m_nonblock_term.getKey(key)] *)
}.

Inductive Outcome : Set :=
  | Continue (s : State)    (* the loop goes round again *)
  | GameOver (s : State)    (* [break] after "Game Over" *)
  | Quit (s : State).       (* [break] on the key q *)


(** [TetrisApp(w, h)] up to the first statement of the loop of [run]; [v] is
    the first value of the twister. *)
Definition init (w h v : Z) : option State :=
  let gen := RandomBlockGenerator.mk (Int.to_int (w `div` 2)) 0 in
  b ← RandomBlockGenerator.call gen v;
  Some {| m_block_map := BlockMap.make w h; m_rand_block_gen := gen;
          n_erased_lines := 0; next_block := false; block := b |}.

(** [if (next_block) { ... }]: the new state and whether the game is over. *)
Definition spawn (i : Inputs) (s : State) : option (State * bool) :=
  if next_block s then
    b ← RandomBlockGenerator.call (m_rand_block_gen s) (mt_value i);
    p ← BlockMap.isPuttable (m_block_map s) b;
    Some ({| m_block_map := m_block_map s; m_rand_block_gen := m_rand_block_gen s;
             n_erased_lines := n_erased_lines s; next_block := false;
             block := b |}, negb p)
  else Some (s, false).

(** [if (m_event_clock.shouldHappen()) { ... }] *)
Definition gravity (i : Inputs) (s : State) : option State :=
  if should_happen i then
    '(r, b, m) ← TryBlockAction (block s) (m_block_map s) (Move 0 1);
    '(m', n) ← BlockMap.eraseFilledLines m;
    Some {| m_block_map := m'; m_rand_block_gen := m_rand_block_gen s;
            n_erased_lines := n_erased_lines s + n; next_block := negb r;
            block := b |}
  else Some s.

(** "Draw screen" and "Restore screen". *)
Definition draw (s : State) : option State :=
  block_map_tmp ← BlockMap.putBlock (m_block_map s) (block s);
  if next_block s
  then Some {| m_block_map := block_map_tmp;
               m_rand_block_gen := m_rand_block_gen s;
               n_erased_lines := n_erased_lines s; next_block := next_block s;
               block := block s |}
  else Some s.

(** One [if (key == ...) TryBlockAction(...)] of the key handling. *)
Definition on_key (pressed : bool) (a : Action) (s : State) : option State :=
  if pressed then
    '(_, b, m) ← TryBlockAction (block s) (m_block_map s) a;
    Some {| m_block_map := m; m_rand_block_gen := m_rand_block_gen s;
            n_erased_lines := n_erased_lines s; next_block := next_block s;
            block := b |}
  else Some s.

(** "Check key input" *)
Definition input (i : Inputs) (s : State) : option Outcome :=
  match key i with
  | Some k =>
      s ← on_key (Ascii.eqb k " " || Ascii.eqb k "r") Rotate s;
      s ← on_key (Ascii.eqb k "h") (Move (-1) 0) s;
      s ← on_key (Ascii.eqb k "l") (Move 1 0) s;
      s ← on_key (Ascii.eqb k "j") (Move 0 1) s;
      if Ascii.eqb k "q" then Some (Quit s) else Some (Continue s)
  | None => Some (Continue s)
  end.

Definition iteration (i : Inputs) (s : State) : option Outcome :=
  '(s, over) ← spawn i s;
  if over : bool then Some (GameOver s)
  else
    s ← gravity i s;
    s ← draw s;
    input i s.

End TetrisApp.

(** ** Drawing

    What [draw] inserts into [std::cout], item by item: a string, an [int]
    or [std::endl]. *)
Inductive Out : Set :=
  | Str (s : string)
  | Num (z : Z)
  | Endl.

Module Draw.

(** The escape character written \e in the source. *)
Definition ESC : ascii := "027"%char.

(** The full-width space U+3000 in UTF-8, the glyph of one cell. *)
Definition CELL : Out :=
  Str (String "227" (String "128" (String "128" EmptyString))).

Definition ClearScreen : list Out :=
  [Str (String ESC "[2J"); Str (String ESC "[0;0H")].

Definition PrintColorCode (col : Color) : list Out :=
  [Str (String ESC "[4"); Num (Color_to_int col); Str "m"].

Definition ResetColorCode : list Out := [Str (String ESC "[0m")].

Definition printWall (n : Z) : list Out :=
  PrintColorCode WHITE ++ (upto n ≫= fun _ => [CELL]).

Definition newline : list Out := ResetColorCode ++ [Endl].

(** The body of the loop over the columns; the state is the running
    subscript [idx] and the output so far.  The vector is read through
    [m_blocks[idx]]. *)
Definition draw_cell (m : BlockMap) (x : Z) (st : Z * list Out)
    : option (Z * list Out) :=
  c ← m_blocks m !! Z.to_nat st.1;
  Some (Int.to_size_t (st.1 + 1), st.2 ++ PrintColorCode c ++ [CELL]).

(** The body of the loop over the lines. *)
Definition draw_line (m : BlockMap) (y : Z) (st : Z * list Out)
    : option (Z * list Out) :=
  st' ← for_each (upto (m_w m)) (draw_cell m) (st.1, st.2 ++ printWall 1);
  Some (st'.1, st'.2 ++ printWall 1 ++ newline).

Definition draw (m : BlockMap) : option (list Out) :=
  let top := ClearScreen ++ printWall (Int.to_size_t (m_w m + 2)) ++ newline in
  st ← for_each (upto (m_h m)) (draw_line m) (0, top);
  Some (st.2 ++ printWall (Int.to_size_t (m_w m + 2)) ++ newline).

End Draw.

(** ** Predicates used in the statements *)

(** The arguments of the action are values of [int]. *)
Definition action_in_int (a : Action) : Prop :=
  match a with
  | Rotate => True
  | Move dx dy => Int.in_int dx /\ Int.in_int dy
  end.

(** Applying the action to the piece stays inside [int]: the arguments are
    values of [int], and so is the range arithmetic of the piece and of the
    transformed piece (hence the two sums of [move] as well). *)
Definition action_no_overflow (a : Action) (b : Block) : Prop :=
  Block.no_overflow b /\ action_in_int a /\ Block.no_overflow (invoke a b).

(** The range arithmetic stays inside [int] for each of the four pieces the
    key handling may try: the piece rotated, moved left, moved right and
    moved down. *)
Definition keys_no_overflow (b : Block) : Prop :=
  Block.no_overflow (invoke Rotate b) /\
  Block.no_overflow (invoke (Move (-1) 0) b) /\
  Block.no_overflow (invoke (Move 1 0) b) /\
  Block.no_overflow (invoke (Move 0 1) b).

(** The frame that a drawing of the field is to show, item by item.  A cell
    is the full-width space; a colour is selected by the escape sequence
    with the number of the colour; a wall is [n] cells in colour 7, white;
    a line ends with the reset sequence and the end of line. *)
Definition glyph : Out :=
  Str (String "227" (String "128" (String "128" EmptyString))).

Definition in_colour (n : Z) : list Out :=
  [Str (String "027" "[4"); Num n; Str "m"].

Definition wall_cells (n : nat) : list Out := in_colour 7 ++ replicate n glyph.

Definition end_of_line : list Out := [Str (String "027" "[0m"); Endl].

(** Line [y] of the field: a wall cell, the cells of the line from left to
    right in the colours that [get] reads, a wall cell. *)
Definition field_line (m : BlockMap) (y : Z) : list Out :=
  wall_cells 1 ++
  (seqZ 0 (m_w m) ≫= fun x =>
     in_colour (Color_to_int (default BLACK (BlockMap.get m x y))) ++ [glyph]) ++
  wall_cells 1 ++ end_of_line.

(** The screen is cleared and the cursor sent to the top left; then a wall
    of [m_w + 2] cells, the lines of the field from the top, and a second
    wall of [m_w + 2] cells. *)
Definition expected_frame (m : BlockMap) : list Out :=
  [Str (String "027" "[2J"); Str (String "027" "[0;0H")] ++
  wall_cells (Z.to_nat (m_w m + 2)) ++ end_of_line ++
  (seqZ 0 (m_h m) ≫= field_line m) ++
  wall_cells (Z.to_nat (m_w m + 2)) ++ end_of_line.

(** The range of [putBlock] after its four clamps. *)
Definition clamped_range (m : BlockMap) (b : Block) : Range :=
  {| sx := Z.max 0 (sx (Block.getRange b));
     sy := Z.max 0 (sy (Block.getRange b));
     ex := Z.min (Int.to_int (m_w m)) (ex (Block.getRange b));
     ey := Z.min (Int.to_int (m_h m)) (ey (Block.getRange b)) |}.






(** What the inner loop of [isPuttable] requires of the cell (x, y). *)
Definition cell_free (m : BlockMap) (b : Block) (x y : Z) : Prop :=
  Block.exist b x y = Some true ->
  y < 0 \/ (0 <= x < m_w m /\ y < m_h m /\ BlockMap.get m x y = Some BLACK).

(** A cell that makes [isPuttable] return false. *)
Definition cell_blocked (m : BlockMap) (b : Block) (x y : Z) : Prop :=
  Block.exist b x y = Some true /\ 0 <= y /\
  (x < 0 \/ m_w m <= x \/ m_h m <= y \/
   exists c, BlockMap.get m x y = Some c /\ c <> BLACK).

(** Two maps of the same dimensions and the same number of cells. *)
Definition same_shape (m m' : BlockMap) : Prop :=
  m_w m' = m_w m /\ m_h m' = m_h m /\
  length (m_blocks m') = length (m_blocks m).

(** Whether the outcome leaves the loop because the game is over. *)
Definition is_game_over (o : TetrisApp.Outcome) : bool :=
  match o with TetrisApp.GameOver _ => true | _ => false end.

(** What the key handling keeps of a state. *)
Definition same_field (s s' : TetrisApp.State) : Prop :=
  TetrisApp.m_block_map s' = TetrisApp.m_block_map s /\
  TetrisApp.next_block s' = TetrisApp.next_block s /\
  TetrisApp.n_erased_lines s' = TetrisApp.n_erased_lines s.

(** How an iteration ends once the keys are handled: out of the loop on
    the key q, into the next round otherwise. *)
Definition after_keys (i : TetrisApp.Inputs) (s : TetrisApp.State)
    : TetrisApp.Outcome :=
  match TetrisApp.key i with
  | Some k => if Ascii.eqb k "q" then TetrisApp.Quit s else TetrisApp.Continue s
  | None => TetrisApp.Continue s
  end.

(** The test of line [y] of [eraseFilledLines], as a total function. *)
Definition filled_at (m : BlockMap) (y : Z) : bool :=
  default false (BlockMap.is_filled m y).

(** The lines that one call of [eraseFilledLines] keeps, named by their
    index before the call, lowest line first, when the lines 0 .. n-1 are
    still to be looked at: a line that is not filled is kept; a filled
    line is dropped, and the line above it is kept without being looked
    at. *)
Fixpoint kept_lines (filled : Z -> bool) (n : nat) : list Z :=
  match n with
  | O => []
  | S n' =>
      if filled (Z.of_nat n') then
        match n' with
        | O => []
        | S n'' => Z.of_nat n'' :: kept_lines filled n''
        end
      else Z.of_nat n' :: kept_lines filled n'
  end.

(** Every cell of the piece that is not above the top lies in the field. *)
Definition in_field (m : BlockMap) (b : Block) : Prop :=
  forall x y, Block.exist b x y = Some true -> 0 <= y ->
    0 <= x < m_w m /\ y < m_h m.



(** * Properties of blocks *)

Lemma Shape_at_Some s i j v :
  Shape.at_ s i j = Some v -> 0 <= i < Shape.H s /\ 0 <= j < Shape.W s.
Proof.
  unfold Shape.at_. intros Hat.
  destruct (i <? 0) eqn:Hi; [discriminate|].
  destruct (j <? 0) eqn:Hj; [discriminate|]. simpl in Hat.
  apply Z.ltb_ge in Hi, Hj.
  destruct (Shape.SHAPE s !! Z.to_nat i) as [row|] eqn:Hrow; [|discriminate].
  simpl in Hat.
  destruct (row !! Z.to_nat j) as [c|] eqn:Hc; [|discriminate].
  apply lookup_lt_Some in Hc.
  pose proof (lookup_lt_Some _ _ _ Hrow) as Hlen.
  assert (length row = Z.to_nat (Shape.W s)) as Hw.
  { clear -Hrow. generalize dependent (Z.to_nat i). intros n Hrow.
    destruct s; simpl in Hrow;
      do 5 (try (destruct n as [|n]; simpl in Hrow;
                 [by inversion Hrow|])); by inversion Hrow. }
  assert (length (Shape.SHAPE s) = Z.to_nat (Shape.H s)) as Hh
    by (destruct s; reflexivity).
  assert (0 <= Shape.W s /\ 0 <= Shape.H s) by (destruct s; simpl; lia).
  lia.
Qed.

Lemma Shape_at_in_mask s i j :
  0 <= i < Shape.H s -> 0 <= j < Shape.W s -> is_Some (Shape.at_ s i j).
Proof.
  intros Hi Hj.
  assert (exists ni nj, i = Z.of_nat ni /\ j = Z.of_nat nj) as (ni & nj & -> & ->).
  { exists (Z.to_nat i), (Z.to_nat j). lia. }
  destruct s; simpl in Hi, Hj;
    repeat (destruct ni as [|ni]; [|try lia]);
    repeat (destruct nj as [|nj]; [|try lia]);
    try lia; vm_compute; eauto.
Qed.


(** Unfolds the range and the mask indices of a block whose shape and
    rotation are known, leaving linear arithmetic on the anchor. *)
Ltac block_unfold :=
  cbv [Block.in_range Block.getRange Block.exist_idx Block.W_L Block.W_R
       Block.H_L Block.H_R Shape.W Shape.H shape m_x m_y m_rot sx sy ex ey
       fst snd] in *;
  change (4 `quot` 2) with 2 in *;
  change (3 `quot` 2) with 1 in *;
  change (2 `quot` 2) with 1 in *.

Ltac block_arith := block_unfold; lia.

Lemma exist_idx_in_mask b x y :
  Block.in_range (Block.getRange b) x y ->
  0 <= (Block.exist_idx b x y).1 < Shape.H (shape b) /\
  0 <= (Block.exist_idx b x y).2 < Shape.W (shape b).
Proof. destruct b as [s ax ay r]. destruct s, r; block_arith. Qed.

Lemma exist_idx_in_range b x y :
  0 <= (Block.exist_idx b x y).1 < Shape.H (shape b) ->
  0 <= (Block.exist_idx b x y).2 < Shape.W (shape b) ->
  Block.in_range (Block.getRange b) x y.
Proof. destruct b as [s ax ay r]. destruct s, r; block_arith. Qed.

Lemma Block_exist_defined b x y :
  Block.in_range (Block.getRange b) x y -> is_Some (Block.exist b x y).
Proof.
  intros Hr. apply exist_idx_in_mask in Hr as [Hi Hj].
  unfold Block.exist. by apply Shape_at_in_mask.
Qed.

Lemma Block_exist_in_range b x y v :
  Block.exist b x y = Some v -> Block.in_range (Block.getRange b) x y.
Proof.
  unfold Block.exist. intros Hv. apply Shape_at_Some in Hv as [Hi Hj].
  by apply exist_idx_in_range.
Qed.

(** [exist] depends on the query cell only through its offset from the
    anchor. *)
Lemma exist_translate s ax ay r dx dy :
  Block.exist (mkBlock s ax ay r) (ax + dx) (ay + dy) =
  Block.exist (mkBlock s 0 0 r) dx dy.
Proof.
  unfold Block.exist.
  assert (Block.exist_idx (mkBlock s ax ay r) (ax + dx) (ay + dy) =
          Block.exist_idx (mkBlock s 0 0 r) dx dy) as ->; [|done].
  destruct s, r; block_unfold; f_equal; lia.
Qed.

(** C8: four successive calls of [rotate] give back the rotation state the
    piece started with, and [exist] answers every cell as it did before. *)
Theorem rotate_four_times_identity (b : Block) :
  let b4 := Block.rotate (Block.rotate (Block.rotate (Block.rotate b))) in
  m_rot b4 = m_rot b /\
  forall x y, Block.exist b4 x y = Block.exist b x y.
Proof.
  assert (Block.rotate (Block.rotate (Block.rotate (Block.rotate b))) = b) as ->.
  { destruct b as [s ax ay r]. by destruct r. }
  done.
Qed.





(** Every cell of the range of a block is the anchor plus an offset between
    -2 and 1 in each coordinate. *)
Lemma in_range_offsets s ax ay r x y :
  Block.in_range (Block.getRange (mkBlock s ax ay r)) x y ->
  (x = ax + -2 \/ x = ax + -1 \/ x = ax + 0 \/ x = ax + 1) /\
  (y = ay + -2 \/ y = ay + -1 \/ y = ay + 0 \/ y = ay + 1).
Proof. destruct s, r; block_unfold; lia. Qed.



(** * The shape drawn by the generator *)

Lemma to_int_small z : Int.INT_MIN <= z <= Int.INT_MAX -> Int.to_int z = z.
Proof.
  unfold Int.to_int, Int.INT_MIN, Int.INT_MAX. intros Hz.
  rewrite Z.mod_small; lia.
Qed.

Lemma to_size_t_small z : 0 <= z <= Int.SIZE_MAX -> Int.to_size_t z = z.
Proof.
  unfold Int.to_size_t, Int.SIZE_MAX. intros Hz. apply Z.mod_small. lia.
Qed.

Lemma size_range_small lo hi :
  0 <= lo <= Int.INT_MAX -> 0 <= hi <= Int.INT_MAX ->
  size_range lo hi = Some (seqZ lo (hi - lo + 1)).
Proof.
  intros Hlo Hhi. unfold size_range, Int.INT_MAX in *.
  rewrite !to_size_t_small by (unfold Int.SIZE_MAX; lia).
  destruct (hi =? Int.SIZE_MAX) eqn:Heq; [|done].
  apply Z.eqb_eq in Heq. unfold Int.SIZE_MAX in Heq. lia.
Qed.

Lemma idx_mod v : RandomBlockGenerator.idx v = v `mod` 7.
Proof.
  unfold RandomBlockGenerator.idx. apply to_int_small.
  pose proof (Z.mod_pos_bound v 7). unfold Int.INT_MIN, Int.INT_MAX. lia.
Qed.

Lemma preimages_succ n r :
  0 <= n ->
  RandomBlockGenerator.preimages (n + 1) r =
  (RandomBlockGenerator.preimages n r +
   if decide (RandomBlockGenerator.idx n = r) then 1 else 0)%nat.
Proof.
  intros Hn. unfold RandomBlockGenerator.preimages, upto.
  rewrite seqZ_app by lia. rewrite filter_app, length_app. f_equal.
  rewrite seqZ_cons by lia. rewrite seqZ_nil by lia. simpl.
  rewrite filter_cons, filter_nil, Z.add_0_l. by case_decide.
Qed.

(** The count in closed form: every residue is hit once in each full block
    of seven values, the residues below [n mod 7] once more. *)
Lemma preimages_closed n r :
  0 <= n -> 0 <= r < 7 ->
  Z.of_nat (RandomBlockGenerator.preimages n r) =
  n `div` 7 + if decide (r < n `mod` 7) then 1 else 0.
Proof.
  intros Hn Hr. revert n Hn. apply natlike_ind.
  - change (0 `div` 7) with 0. change (0 `mod` 7) with 0.
    case_decide; [lia|reflexivity].
  - intros n Hn IH. unfold Z.succ. rewrite preimages_succ by done.
    rewrite Nat2Z.inj_add, IH, idx_mod.
    pose proof (Z.div_mod n 7). pose proof (Z.mod_pos_bound n 7).
    pose proof (Z.div_mod (n + 1) 7). pose proof (Z.mod_pos_bound (n + 1) 7).
    repeat case_decide; simpl; lia.
Qed.

(** [operator()] always builds a block: the final [else] branch with its
    [assert(false)] is never taken. *)
Lemma call_defined g v :
  exists s,
    RandomBlockGenerator.call g v =
    Some (mkBlock s (RandomBlockGenerator.m_x g) (RandomBlockGenerator.m_y g) ROT0).
Proof.
  unfold RandomBlockGenerator.call. rewrite idx_mod.
  pose proof (Z.mod_pos_bound v 7) as Hb.
  assert (v `mod` 7 = 0 \/ v `mod` 7 = 1 \/ v `mod` 7 = 2 \/ v `mod` 7 = 3 \/
          v `mod` 7 = 4 \/ v `mod` 7 = 5 \/ v `mod` 7 = 6) as Hc by lia.
  destruct Hc as [->|[->|[->|[->|[->|[->| ->]]]]]]; simpl; eauto.
Qed.

(** Against C9: shape 0 is selected by one more twister output than
    shape 6, so the seven residues do not have equally many preimages. *)
Lemma shape_choice_not_uniform :
  RandomBlockGenerator.preimages RandomBlockGenerator.MT_RANGE 0 <>
  RandomBlockGenerator.preimages RandomBlockGenerator.MT_RANGE 6.
Proof.
  intros Heq. apply (f_equal Z.of_nat) in Heq.
  rewrite !preimages_closed in Heq by (unfold RandomBlockGenerator.MT_RANGE; lia).
  vm_compute in Heq. discriminate.
Qed.

(** C9, amended: every twister output selects one of the seven shapes; of
    the 2^32 outputs, 613566757 select each of the shapes 0..3 and 613566756
    select each of the shapes 4..6, so the choice is uniform up to one
    preimage. *)
Theorem shape_choice_preimages (r : Z) :
  0 <= r < 7 ->
  (forall v, 0 <= RandomBlockGenerator.idx v < 7) /\
  Z.of_nat (RandomBlockGenerator.preimages RandomBlockGenerator.MT_RANGE r) =
  if decide (r < 4) then 613566757 else 613566756.
Proof.
  intros Hr. split.
  - intros v. rewrite idx_mod. apply Z.mod_pos_bound. lia.
  - rewrite preimages_closed by (unfold RandomBlockGenerator.MT_RANGE; lia).
    change (RandomBlockGenerator.MT_RANGE `div` 7) with 613566756.
    change (RandomBlockGenerator.MT_RANGE `mod` 7) with 4.
    repeat case_decide; lia.
Qed.

Lemma shape_choice_preimages_witness :
  Z.of_nat (RandomBlockGenerator.preimages RandomBlockGenerator.MT_RANGE 5) =
  613566756.
Proof.
  refine (proj2 (shape_choice_preimages 5 _)). lia.
Defined.

(** * Loops *)

Lemma for_each_app {S : Type} (xs ys : list Z) (body : Z -> S -> option S) s :
  for_each (xs ++ ys) body s = s' ← for_each xs body s; for_each ys body s'.
Proof.
  revert s. induction xs as [|x xs IH]; intros s; simpl; [done|].
  destruct (body x s) as [s'|]; simpl; [apply IH|done].
Qed.

Lemma for_each_cons {S : Type} x (xs : list Z) (body : Z -> S -> option S) s :
  for_each (x :: xs) body s = s' ← body x s; for_each xs body s'.
Proof. done. Qed.

Lemma mbind_Some_l {A B : Type} (f : A -> option B) (a : A) :
  Some a ≫= f = f a.
Proof. done. Qed.

(** A loop whose every step leaves the state as it is. *)
Lemma for_each_skip {S : Type} (xs : list Z) (body : Z -> S -> option S) s :
  (forall x, x ∈ xs -> body x s = Some s) -> for_each xs body s = Some s.
Proof.
  induction xs as [|x xs IH]; intros Hb; simpl; [done|].
  rewrite Hb by constructor. simpl. apply IH.
  intros x' Hx'. apply Hb. by constructor.
Qed.

(** A property kept by every step is kept by the loop. *)
Lemma for_each_invariant {S : Type} (P : S -> Prop) (xs : list Z)
    (body : Z -> S -> option S) s s' :
  (forall x t t', P t -> body x t = Some t' -> P t') ->
  P s -> for_each xs body s = Some s' -> P s'.
Proof.
  intros Hstep. revert s. induction xs as [|x xs IH]; intros s Hs Hrun; simpl in Hrun.
  - by injection Hrun as <-.
  - destruct (body x s) as [t|] eqn:Hb; simpl in Hrun; [|done].
    eapply IH; [|exact Hrun]. by eapply Hstep.
Qed.

(** A loop is defined when every step is, on every state that satisfies a
    property the steps keep. *)
Lemma for_each_defined {S : Type} (P : S -> Prop) (xs : list Z)
    (body : Z -> S -> option S) s :
  (forall x t, x ∈ xs -> P t -> exists t', body x t = Some t' /\ P t') ->
  P s -> exists s', for_each xs body s = Some s' /\ P s'.
Proof.
  revert s. induction xs as [|x xs IH]; intros s Hstep Hs; simpl.
  - by exists s.
  - destruct (Hstep x s) as (t & -> & Ht); [constructor|done|].
    simpl. apply IH; [|done].
    intros x' t' Hx'. apply Hstep. by constructor.
Qed.

(** A loop with an early exit, all of whose checks are defined, answers
    true exactly when every check does. *)
Lemma all_cells_spec (check : Z -> option bool) (xs : list Z) :
  (forall x, x ∈ xs -> is_Some (check x)) ->
  exists r, all_cells check xs = Some r /\
            (r = true <-> forall x, x ∈ xs -> check x = Some true).
Proof.
  induction xs as [|x xs IH]; intros Hdef; simpl.
  - exists true. split; [done|]. split; [|done]. intros _ x Hx. inversion Hx.
  - destruct (Hdef x) as [v Hv]; [constructor|]. rewrite Hv. simpl.
    destruct v.
    + destruct IH as (r & Hr & Hiff).
      { intros x' Hx'. apply Hdef. by constructor. }
      exists r. split; [done|]. rewrite Hiff. split.
      * intros Hall x' Hx'. inversion Hx'; subst; auto.
      * intros Hall x' Hx'. apply Hall. by constructor.
    + exists false. split; [done|]. split; [done|].
      intros Hall. specialize (Hall x). rewrite Hv in Hall.
      discriminate Hall. constructor.
Qed.

Lemma elem_of_int_range lo hi x : x ∈ int_range lo hi <-> lo <= x <= hi.
Proof. unfold int_range. rewrite elem_of_seqZ. lia. Qed.

Lemma elem_of_upto n x : x ∈ upto n <-> 0 <= x < n.
Proof. unfold upto. rewrite elem_of_seqZ. lia. Qed.

(** * The vector of a well-formed map *)

Lemma index_in_field m x y :
  BlockMap.wf m -> 0 <= x < m_w m -> 0 <= y < m_h m ->
  BlockMap.index m x y = y * m_w m + x /\
  (Z.to_nat (y * m_w m + x) < length (m_blocks m))%nat.
Proof.
  intros (Hw & Hh & Hlen) Hx Hy. unfold BlockMap.index.
  unfold Int.INT_MAX in *.
  assert (y * m_w m + x < m_w m * m_h m) by nia.
  assert (m_w m * m_h m <= Int.SIZE_MAX) by (unfold Int.SIZE_MAX; nia).
  rewrite (to_size_t_small y), (to_size_t_small x) by (unfold Int.SIZE_MAX; lia).
  rewrite (to_size_t_small (y * m_w m)) by nia.
  rewrite to_size_t_small by nia.
  split; [done|]. rewrite Hlen. lia.
Qed.

Lemma get_defined m x y :
  BlockMap.wf m -> 0 <= x < m_w m -> 0 <= y < m_h m ->
  is_Some (BlockMap.get m x y).
Proof.
  intros Hwf Hx Hy. destruct (index_in_field m x y) as [Hi Hlt]; [done..|].
  unfold BlockMap.get. rewrite Hi. by apply lookup_lt_is_Some.
Qed.

(** Two cells of the field share a subscript only when they are the same
    cell. *)
Lemma index_injective m x y x' y' :
  0 <= x < m_w m -> 0 <= x' < m_w m ->
  y * m_w m + x = y' * m_w m + x' -> x = x' /\ y = y'.
Proof. intros Hx Hx' Heq. assert (y = y') by nia. subst. lia. Qed.

Lemma set_spec m x y c :
  BlockMap.wf m -> 0 <= x < m_w m -> 0 <= y < m_h m ->
  exists m', BlockMap.set m x y c = Some m' /\
    BlockMap.wf m' /\ m_w m' = m_w m /\ m_h m' = m_h m /\
    BlockMap.get m' x y = Some c /\
    forall x' y', 0 <= x' < m_w m -> 0 <= y' < m_h m ->
      (x', y') <> (x, y) -> BlockMap.get m' x' y' = BlockMap.get m x' y'.
Proof.
  intros Hwf Hx Hy. destruct (index_in_field m x y) as [Hi Hlt]; [done..|].
  unfold BlockMap.set. rewrite Hi. rewrite decide_True by done.
  eexists. split; [done|].
  assert (BlockMap.wf
    {| m_w := m_w m; m_h := m_h m;
       m_blocks := <[Z.to_nat (y * m_w m + x) := c]> (m_blocks m) |}) as Hwf'.
  { destruct Hwf as (Hw & Hh & Hlen). unfold BlockMap.wf. simpl.
    by rewrite length_insert. }
  split; [exact Hwf'|]. split; [done|]. split; [done|]. split.
  - unfold BlockMap.get, BlockMap.index. simpl.
    fold (BlockMap.index m x y). rewrite Hi. by apply list_lookup_insert_eq.
  - intros x' y' Hx' Hy' Hne.
    destruct (index_in_field m x' y') as [Hi' _]; [done..|].
    unfold BlockMap.get, BlockMap.index. simpl.
    fold (BlockMap.index m x' y'). rewrite Hi'.
    apply list_lookup_insert_ne. intros Heq.
    assert (0 <= y * m_w m /\ 0 <= y' * m_w m) as [? ?] by nia.
    assert (y * m_w m + x = y' * m_w m + x') as Heq' by lia.
    apply index_injective in Heq' as [-> ->]; [|lia..]. by apply Hne.
Qed.

Lemma all_cells_false (check : Z -> option bool) (xs : list Z) :
  all_cells check xs = Some false -> exists x, x ∈ xs /\ check x = Some false.
Proof.
  induction xs as [|x xs IH]; simpl; [done|].
  destruct (check x) as [[|]|] eqn:Hc; simpl; [|  |done].
  - intros Hrest. destruct (IH Hrest) as (x' & Hin & Hx').
    exists x'. split; [by constructor|done].
  - intros _. exists x. split; [constructor|done].
Qed.

(** * isPuttable *)

Lemma index_reduce m x y :
  BlockMap.index m x y = BlockMap.index m (Int.to_size_t x) (Int.to_size_t y).
Proof.
  unfold BlockMap.index, Int.to_size_t. by rewrite !Z.mod_mod by lia.
Qed.

Lemma to_size_t_bound z : 0 <= Int.to_size_t z <= Int.SIZE_MAX.
Proof.
  unfold Int.to_size_t, Int.SIZE_MAX.
  pose proof (Z.mod_pos_bound z (2 ^ 64)). lia.
Qed.

Lemma Color_is_BLACK c : (Color_to_int c =? 0) = true <-> c = BLACK.
Proof. destruct c; simpl; split; intros; done. Qed.

Lemma check_cell_defined m b x y :
  BlockMap.wf m -> Block.in_range (Block.getRange b) x y ->
  is_Some (BlockMap.check_cell m b x y).
Proof.
  intros Hwf Hr. unfold BlockMap.check_cell.
  destruct (Block_exist_defined b x y Hr) as [e ->]. simpl.
  destruct e; simpl; [|done].
  destruct (y <? 0); [done|].
  destruct (x <? 0); simpl; [done|].
  destruct (m_w m <=? Int.to_size_t x) eqn:Hx; simpl; [done|].
  destruct (m_h m <=? Int.to_size_t y) eqn:Hy; simpl; [done|].
  apply Z.leb_gt in Hx, Hy.
  pose proof (to_size_t_bound x). pose proof (to_size_t_bound y).
  destruct (get_defined m (Int.to_size_t x) (Int.to_size_t y)) as [c Hc];
    [done|lia..|].
  unfold BlockMap.exist, BlockMap.get in *.
  rewrite index_reduce, Hc. done.
Qed.

Lemma check_cell_spec m b x y r :
  x < Int.INT_MAX -> y < Int.INT_MAX ->
  BlockMap.check_cell m b x y = Some r ->
  (r = true -> cell_free m b x y) /\ (r = false -> cell_blocked m b x y).
Proof.
  intros Hxm Hym. unfold BlockMap.check_cell, cell_free, cell_blocked.
  unfold Int.INT_MAX in *.
  destruct (Block.exist b x y) as [e|]; simpl; [|done].
  destruct e; simpl; [|intros [= <-]; split; done].
  destruct (y <? 0) eqn:Hy0.
  { apply Z.ltb_lt in Hy0. intros [= <-]. split; [by left|done]. }
  apply Z.ltb_ge in Hy0.
  destruct (x <? 0) eqn:Hx0; simpl.
  { apply Z.ltb_lt in Hx0. intros [= <-]. split; [done|]. intros _.
    split_and!; [done..|by left]. }
  apply Z.ltb_ge in Hx0.
  rewrite (to_size_t_small x), (to_size_t_small y)
    by (unfold Int.SIZE_MAX; lia).
  destruct (m_w m <=? x) eqn:Hx; simpl.
  { apply Z.leb_le in Hx. intros [= <-]. split; [done|]. intros _.
    split_and!; [done..|right; by left]. }
  destruct (m_h m <=? y) eqn:Hy; simpl.
  { apply Z.leb_le in Hy. intros [= <-]. split; [done|]. intros _.
    split_and!; [done..|right; right; by left]. }
  apply Z.leb_gt in Hx, Hy. unfold BlockMap.exist.
  destruct (BlockMap.get m x y) as [c|]; simpl; [|done].
  intros [= <-]. rewrite negb_involutive. split.
  - intros Hc%Color_is_BLACK. subst c. intros _. right. split_and!; done || lia.
  - intros Hc. split_and!; [done..|]. right; right; right. exists c.
    split; [done|]. intros ->. done.
Qed.

Lemma cell_free_not_blocked m b x y :
  cell_free m b x y -> cell_blocked m b x y -> False.
Proof.
  intros Hfree (He & Hy & Hbad). destruct (Hfree He) as [?|(Hx & Hyh & Hget)];
    [lia|].
  destruct Hbad as [?|[?|[?|(c & Hc & Hne)]]]; [lia..|congruence].
Qed.

Lemma isPuttable_defined m b :
  BlockMap.wf m -> is_Some (BlockMap.isPuttable m b).
Proof.
  intros Hwf. unfold BlockMap.isPuttable.
  destruct (all_cells_spec
    (fun y => all_cells (fun x => BlockMap.check_cell m b x y)
       (int_range (sx (Block.getRange b)) (ex (Block.getRange b))))
    (int_range (sy (Block.getRange b)) (ey (Block.getRange b))))
    as (r & -> & _); [|done].
  intros y Hy%elem_of_int_range.
  destruct (all_cells_spec (fun x => BlockMap.check_cell m b x y)
    (int_range (sx (Block.getRange b)) (ex (Block.getRange b))))
    as (r & -> & _); [|done].
  intros x Hx%elem_of_int_range. by apply check_cell_defined.
Qed.

(** C3: on a well-formed map, for a piece whose range arithmetic stays in
    [int], [isPuttable] returns a value; it is true exactly when every cell
    of the bounding range at which [exist] is true has y < 0, or has
    0 <= x < width, y < height and an empty field cell; it is false exactly
    when some occupied cell with y >= 0 is out of bounds in x, at or below
    the bottom, or on a non-empty field cell. *)
Theorem isPuttable_iff (m : BlockMap) (b : Block) :
  BlockMap.wf m -> Block.no_overflow b ->
  exists r, BlockMap.isPuttable m b = Some r /\
    (r = true <->
       forall x y, Block.in_range (Block.getRange b) x y ->
         Block.exist b x y = Some true ->
         y < 0 \/ (0 <= x < m_w m /\ y < m_h m /\
                   BlockMap.get m x y = Some BLACK)) /\
    (r = false <->
       exists x y, Block.in_range (Block.getRange b) x y /\
         Block.exist b x y = Some true /\ 0 <= y /\
         (x < 0 \/ m_w m <= x \/ m_h m <= y \/
          exists c, BlockMap.get m x y = Some c /\ c <> BLACK)).
Proof.
  intros Hwf (_ & _ & Hex & Hey).
  destruct (isPuttable_defined m b Hwf) as [r Hr]. exists r. split; [done|].
  assert (r = true -> forall x y, Block.in_range (Block.getRange b) x y ->
            cell_free m b x y) as Htrue.
  { intros -> x y [Hx Hy]. unfold BlockMap.isPuttable in Hr.
    destruct (all_cells_spec
      (fun y => all_cells (fun x => BlockMap.check_cell m b x y)
         (int_range (sx (Block.getRange b)) (ex (Block.getRange b))))
      (int_range (sy (Block.getRange b)) (ey (Block.getRange b))))
      as (r & Hr' & Hrows).
    { intros y' Hy'%elem_of_int_range.
      destruct (all_cells_spec (fun x => BlockMap.check_cell m b x y')
        (int_range (sx (Block.getRange b)) (ex (Block.getRange b))))
        as (r' & -> & _); [|done].
      intros x' Hx'%elem_of_int_range. by apply check_cell_defined. }
    rewrite Hr in Hr'. injection Hr' as <-.
    destruct Hrows as [Hrows _]. specialize (Hrows eq_refl y).
    rewrite elem_of_int_range in Hrows. specialize (Hrows Hy).
    destruct (all_cells_spec (fun x => BlockMap.check_cell m b x y)
      (int_range (sx (Block.getRange b)) (ex (Block.getRange b))))
      as (r' & Hr' & Hcols).
    { intros x' Hx'%elem_of_int_range. by apply check_cell_defined. }
    rewrite Hrows in Hr'. injection Hr' as <-.
    destruct Hcols as [Hcols _]. specialize (Hcols eq_refl x).
    rewrite elem_of_int_range in Hcols. specialize (Hcols Hx).
    eapply check_cell_spec in Hcols as [Hfree _]; [by apply Hfree|lia..]. }
  assert (r = false -> exists x y, Block.in_range (Block.getRange b) x y /\
            cell_blocked m b x y) as Hfalse.
  { intros ->. unfold BlockMap.isPuttable in Hr.
    apply all_cells_false in Hr as (y & Hy%elem_of_int_range & Hrow).
    apply all_cells_false in Hrow as (x & Hx%elem_of_int_range & Hc).
    exists x, y. split; [done|].
    eapply check_cell_spec in Hc as [_ Hblocked]; [by apply Hblocked|lia..]. }
  split; split.
  - intros Hrt x y Hin. by apply Htrue.
  - intros Hall. destruct r; [done|]. destruct Hfalse as (x & y & Hin & Hb); [done|].
    destruct (cell_free_not_blocked m b x y); [intros He; by apply Hall|done].
  - intros Hrf. destruct (Hfalse Hrf) as (x & y & Hin & He & Hy & Hbad).
    exists x, y. done.
  - intros (x & y & Hin & He & Hy & Hbad). destruct r; [|done].
    destruct (cell_free_not_blocked m b x y); [by apply Htrue|done].
Qed.

Lemma isPuttable_iff_witness :
  exists r, BlockMap.isPuttable (BlockMap.make 11 20)
              (mkBlock BlockShape0 5 0 ROT0) = Some r.
Proof.
  destruct (isPuttable_iff (BlockMap.make 11 20) (mkBlock BlockShape0 5 0 ROT0))
    as (r & Hr & _).
  - unfold BlockMap.wf. split_and!; vm_compute; congruence.
  - unfold Block.no_overflow. split_and!; vm_compute; congruence.
  - by exists r.
Defined.

(** * TryBlockAction *)

Lemma assign_invoke a b : Block.assign b (invoke a (Block.clone b)) = invoke a b.
Proof. by destruct a. Qed.

(** C7: on a well-formed map, for a piece and an action whose application
    stays inside [int] (the arguments of the action, the range arithmetic
    of the piece and that of the transformed piece), the placement
    test of the transformed clone returns a value; if it is false,
    [TryBlockAction] returns false and leaves the piece as it was; if it is
    true, it returns true and the piece is the transformed piece; the map is
    handed back unchanged either way. *)
Theorem TryBlockAction_accepts_or_rejects (block : Block) (m : BlockMap)
    (a : Action) :
  BlockMap.wf m -> action_no_overflow a block ->
  is_Some (BlockMap.isPuttable m (invoke a block)) /\
  (BlockMap.isPuttable m (invoke a block) = Some false ->
   TryBlockAction block m a = Some (false, block, m)) /\
  (BlockMap.isPuttable m (invoke a block) = Some true ->
   TryBlockAction block m a = Some (true, invoke a block, m)).
Proof.
  intros Hwf _. split; [by apply isPuttable_defined|].
  unfold TryBlockAction, Block.clone.
  split; intros ->; simpl; [done|].
  by rewrite <- (assign_invoke a block).
Qed.

Lemma TryBlockAction_accepts_or_rejects_witness :
  TryBlockAction (mkBlock BlockShape3 1 19 ROT0) (BlockMap.make 11 20)
    (Move (-1) 0) =
  Some (false, mkBlock BlockShape3 1 19 ROT0, BlockMap.make 11 20).
Proof.
  refine (proj1 (proj2 (TryBlockAction_accepts_or_rejects
    (mkBlock BlockShape3 1 19 ROT0) (BlockMap.make 11 20) (Move (-1) 0) _ _)) _).
  - unfold BlockMap.wf. split_and!; vm_compute; congruence.
  - unfold action_no_overflow, action_in_int, Int.in_int, Block.no_overflow.
    split_and!; vm_compute; congruence.
  - vm_compute. reflexivity.
Defined.

(** * eraseFilledLines *)

Lemma seqZ_snoc k : 0 <= k -> seqZ 0 (k + 1) = seqZ 0 k ++ [k].
Proof.
  intros Hk. rewrite seqZ_app by lia. f_equal.
Qed.

(** A loop over the columns that stores into line [yy] a colour [v x] that
    does not depend on what the loop has already stored: afterwards the
    first [k] cells of line [yy] hold [v], every other cell is as before. *)
Lemma write_line m yy (g : BlockMap -> Z -> option Color)
    (v : Z -> option Color) k :
  BlockMap.wf m -> 0 <= yy < m_h m ->
  (forall x, 0 <= x < m_w m -> is_Some (v x)) ->
  (forall m' x, 0 <= x < m_w m -> BlockMap.wf m' ->
     m_w m' = m_w m -> m_h m' = m_h m ->
     (forall x' y', 0 <= x' < m_w m -> 0 <= y' < m_h m -> y' <> yy ->
        BlockMap.get m' x' y' = BlockMap.get m x' y') ->
     g m' x = v x) ->
  0 <= k -> k <= m_w m ->
  exists m',
    for_each (seqZ 0 k)
      (fun x m => c ← g m x; BlockMap.set m (Int.to_int x) (Int.to_int yy) c) m
    = Some m' /\
    BlockMap.wf m' /\ m_w m' = m_w m /\ m_h m' = m_h m /\
    forall x y, 0 <= x < m_w m -> 0 <= y < m_h m ->
      BlockMap.get m' x y =
      if decide (y = yy /\ x < k) then v x else BlockMap.get m x y.
Proof.
  intros Hwf Hyy Hv Hg Hk. revert k Hk. apply (natlike_ind (fun k => k <= m_w m -> _)).
  - intros _. exists m. rewrite seqZ_nil by lia. split_and!; [done..|].
    intros x y Hx Hy. rewrite decide_False by lia. done.
  - intros k Hk IH Hle. destruct IH as (m1 & Hrun & Hwf1 & Hw1 & Hh1 & Hget1); [lia|].
    unfold Z.succ. rewrite seqZ_snoc, for_each_app, Hrun by done. simpl.
    rewrite (Hg m1 k); [|lia|done..|].
    2:{ intros x' y' Hx' Hy' Hne. rewrite Hget1 by done.
        rewrite decide_False by lia. done. }
    destruct (Hv k) as [c Hc]; [lia|]. rewrite Hc. simpl.
    destruct Hwf as (Hwm & Hhm & Hlen). unfold Int.INT_MAX in *.
    rewrite !to_int_small by (unfold Int.INT_MIN, Int.INT_MAX; lia).
    destruct (set_spec m1 k yy c) as (m2 & Hset & Hwf2 & Hw2 & Hh2 & Hsame & Hother);
      [done|lia..|].
    exists m2. rewrite Hset. split_and!; [done|done|lia|lia|].
    intros x y Hx Hy. destruct (decide ((x, y) = (k, yy))) as [[= -> ->]|Hne].
    + rewrite Hsame. rewrite decide_True by lia. done.
    + rewrite Hother by (done || lia). rewrite Hget1 by done.
      repeat case_decide; try done; try lia.
      destruct Hne. f_equal; lia.
Qed.

Lemma for_each_ext {S : Type} (xs : list Z) (f g : Z -> S -> option S) s :
  (forall x t, f x t = g x t) -> for_each xs f s = for_each xs g s.
Proof.
  intros Hfg. revert s. induction xs as [|x xs IH]; intros s; simpl; [done|].
  rewrite Hfg. destruct (g x s); simpl; [apply IH|done].
Qed.

Lemma copy_line_spec m yy :
  BlockMap.wf m -> 1 <= yy < m_h m ->
  exists m', BlockMap.copy_line (m_w m) yy m = Some m' /\
    BlockMap.wf m' /\ m_w m' = m_w m /\ m_h m' = m_h m /\
    forall x y, 0 <= x < m_w m -> 0 <= y < m_h m ->
      BlockMap.get m' x y =
      if decide (y = yy) then BlockMap.get m x (yy - 1) else BlockMap.get m x y.
Proof.
  intros Hwf Hyy. pose proof Hwf as (Hwm & Hhm & _). unfold Int.INT_MAX in *.
  destruct (write_line m yy
    (fun m x => BlockMap.get m (Int.to_int x) (Int.to_int (Int.to_size_t (yy - 1))))
    (fun x => BlockMap.get m x (yy - 1)) (m_w m))
    as (m' & Hrun & Hwf' & Hw' & Hh' & Hget); [done|lia| | |lia|lia|].
  - intros x Hx. apply get_defined; [done|lia..].
  - intros m1 x Hx Hwf1 Hw1 Hh1 Hsame.
    rewrite (to_size_t_small (yy - 1)) by (unfold Int.SIZE_MAX; lia).
    rewrite !to_int_small by (unfold Int.INT_MIN, Int.INT_MAX; lia).
    apply Hsame; lia.
  - exists m'. split; [exact Hrun|]. split_and!; [done..|].
    intros x y Hx Hy. rewrite Hget by done.
    repeat case_decide; done || lia.
Qed.

(** The "Shift" loop after its first [j] rounds: lines y, y-1, .., y-j+1
    hold what the line above each of them held. *)
Lemma shift_lines m y j :
  BlockMap.wf m -> 0 <= y < m_h m -> 0 <= j -> j <= y ->
  exists m',
    for_each (reverse (seqZ (y - j + 1) j)) (BlockMap.copy_line (m_w m)) m = Some m' /\
    BlockMap.wf m' /\ m_w m' = m_w m /\ m_h m' = m_h m /\
    forall x r, 0 <= x < m_w m -> 0 <= r < m_h m ->
      BlockMap.get m' x r =
      if decide (y - j < r <= y) then BlockMap.get m x (r - 1)
      else BlockMap.get m x r.
Proof.
  intros Hwf Hy Hj. revert j Hj. apply (natlike_ind (fun j => j <= y -> _)).
  - intros _. exists m. rewrite seqZ_nil by lia. split_and!; [done..|].
    intros x r Hx Hr. rewrite decide_False by lia. done.
  - intros j Hj IH Hle.
    destruct IH as (m1 & Hrun & Hwf1 & Hw1 & Hh1 & Hget1); [lia|].
    unfold Z.succ. rewrite (seqZ_cons _ (j + 1)) by lia.
    replace (Z.succ (y - (j + 1) + 1)) with (y - j + 1) by lia.
    replace (Z.pred (j + 1)) with j by lia.
    rewrite reverse_cons, for_each_app, Hrun. simpl.
    destruct (copy_line_spec m1 (y - (j + 1) + 1))
      as (m2 & Hcopy & Hwf2 & Hw2 & Hh2 & Hget2); [done|lia|].
    rewrite Hw1 in Hcopy. rewrite Hcopy. simpl.
    exists m2. split_and!; [done|done|lia|lia|].
    intros x r Hx Hr. rewrite Hget2 by lia.
    case_decide as Hrow.
    + rewrite Hget1 by lia. rewrite decide_False by lia.
      rewrite decide_True by lia. by subst r.
    + rewrite Hget1 by lia. repeat case_decide; done || lia.
Qed.

(** The whole of "Shift" and "Last line" for a line [y] of the field. *)
Lemma shift_spec m y :
  BlockMap.wf m -> 0 <= y < m_h m ->
  exists m', BlockMap.shift m y = Some m' /\
    BlockMap.wf m' /\ m_w m' = m_w m /\ m_h m' = m_h m /\
    forall x r, 0 <= x < m_w m -> 0 <= r < m_h m ->
      BlockMap.get m' x r =
      if decide (r = 0) then Some BLACK
      else if decide (r <= y) then BlockMap.get m x (r - 1)
      else BlockMap.get m x r.
Proof.
  intros Hwf Hy. pose proof Hwf as (Hwm & Hhm & _). unfold Int.INT_MAX in *.
  destruct (shift_lines m y y) as (m1 & Hrun & Hwf1 & Hw1 & Hh1 & Hget1);
    [done|lia..|].
  replace (y - y + 1) with 1 in Hrun by lia.
  unfold BlockMap.shift, downto_1.
  rewrite (to_size_t_small y) by (unfold Int.SIZE_MAX; lia).
  rewrite Hrun. simpl. unfold BlockMap.clear_top_line.
  destruct (write_line m1 0 (fun _ _ => Some BLACK) (fun _ => Some BLACK) (m_w m1))
    as (m2 & Hclear & Hwf2 & Hw2 & Hh2 & Hget2); [done|lia|done|done|lia|lia|].
  assert (for_each (upto (m_w m))
            (fun x m => BlockMap.set m (Int.to_int x) 0 BLACK) m1 = Some m2) as ->.
  { rewrite <- Hclear, Hw1. apply for_each_ext. intros x t. simpl.
    by rewrite (to_int_small 0) by (unfold Int.INT_MIN, Int.INT_MAX; lia). }
  exists m2. split_and!; [done|done|lia|lia|].
  intros x r Hx Hr. rewrite Hget2 by lia.
  case_decide as H0.
  - rewrite decide_True by lia. done.
  - rewrite Hget1 by lia. repeat case_decide; done || lia.
Qed.

Lemma is_filled_spec m y :
  BlockMap.wf m -> 0 <= y < m_h m ->
  exists r, BlockMap.is_filled m y = Some r /\
    (r = true <-> BlockMap.filled_line m y) /\
    (r = false <-> BlockMap.open_line m y).
Proof.
  intros Hwf Hy. pose proof Hwf as (Hwm & Hhm & _). unfold Int.INT_MAX in *.
  set (check := fun x =>
    c ← BlockMap.get m (Int.to_int x) y; Some (negb (bool_decide (c = BLACK)))).
  assert (forall x, 0 <= x < m_w m ->
    exists c, BlockMap.get m x y = Some c /\
              check x = Some (negb (bool_decide (c = BLACK)))) as Hcheck.
  { intros x Hx. destruct (get_defined m x y) as [c Hc]; [done..|].
    exists c. split; [done|]. unfold check.
    rewrite to_int_small by (unfold Int.INT_MIN, Int.INT_MAX; lia).
    by rewrite Hc. }
  destruct (all_cells_spec check (upto (m_w m))) as (r & Hr & Htrue).
  { intros x Hx%elem_of_upto. destruct (Hcheck x Hx) as (c & _ & ->). done. }
  assert (r = true <-> BlockMap.filled_line m y) as Hfilled.
  { rewrite Htrue. unfold BlockMap.filled_line. split.
    - intros Hall x Hx. destruct (Hcheck x Hx) as (c & Hc & Hcx).
      exists c. split; [done|]. specialize (Hall x). rewrite elem_of_upto in Hall.
      rewrite Hcx in Hall. specialize (Hall Hx). injection Hall as Hall.
      apply negb_true_iff, bool_decide_eq_false in Hall. done.
    - intros Hall x Hx%elem_of_upto. destruct (Hcheck x Hx) as (c & Hc & ->).
      destruct (Hall x Hx) as (c' & Hc' & Hne). rewrite Hc in Hc'.
      injection Hc' as <-. by rewrite bool_decide_eq_false_2. }
  exists r. split; [exact Hr|]. split; [exact Hfilled|]. split.
  - intros ->. apply all_cells_false in Hr as (x & Hx%elem_of_upto & Hcx).
    destruct (Hcheck x Hx) as (c & Hc & Hcx'). rewrite Hcx in Hcx'.
    injection Hcx' as Hcx'. symmetry in Hcx'.
    apply negb_false_iff, bool_decide_eq_true in Hcx'. subst c.
    by exists x.
  - intros (x & Hx & Hopen). destruct r; [|done].
    destruct Hfilled as [Hfilled _].
    destruct (Hfilled eq_refl x Hx) as (c & Hc & Hne). congruence.
Qed.

Lemma erase_step_open m n y :
  BlockMap.wf m -> 0 <= y < m_h m -> BlockMap.open_line m y ->
  BlockMap.erase_step y (m, n) = Some (m, n).
Proof.
  intros Hwf Hy Hopen. unfold BlockMap.erase_step. simpl.
  destruct (is_filled_spec m y) as (r & -> & _ & Hfalse); [done..|].
  apply Hfalse in Hopen as ->. done.
Qed.

Lemma erase_step_filled m n y :
  BlockMap.wf m -> 0 <= y < m_h m -> BlockMap.filled_line m y ->
  BlockMap.erase_step y (m, n) = m' ← BlockMap.shift m y; Some (m', n + 1).
Proof.
  intros Hwf Hy Hfilled. unfold BlockMap.erase_step. simpl.
  destruct (is_filled_spec m y) as (r & -> & Htrue & _); [done..|].
  apply Htrue in Hfilled as ->. done.
Qed.

Lemma downto_0_split h y :
  0 <= y < h ->
  downto_0 (h - 1) =
  reverse (seqZ (y + 1) (h - y - 1)) ++ [y] ++ reverse (seqZ 0 y).
Proof.
  intros Hy. unfold downto_0.
  replace (h - 1 + 1) with (y + (1 + (h - y - 1))) by lia.
  rewrite seqZ_app by lia. rewrite (seqZ_app _ 1) by lia.
  rewrite !reverse_app. rewrite <- app_assoc. f_equal.
Qed.

(** C6: on a well-formed map whose line [y] is completely filled while every
    other line holds an empty cell, [eraseFilledLines] returns 1; in the map
    it leaves, line 0 is empty, every line 1..y holds what the line above it
    held, and the lines below [y] are as they were. *)
Theorem eraseFilledLines_one_line (m : BlockMap) (y : Z) :
  BlockMap.wf m -> 0 <= y < m_h m ->
  BlockMap.filled_line m y ->
  (forall y', 0 <= y' < m_h m -> y' <> y -> BlockMap.open_line m y') ->
  exists m', BlockMap.eraseFilledLines m = Some (m', 1) /\
    m_w m' = m_w m /\ m_h m' = m_h m /\
    length (m_blocks m') = length (m_blocks m) /\
    (forall x, 0 <= x < m_w m -> BlockMap.get m' x 0 = Some BLACK) /\
    (forall x y', 0 <= x < m_w m -> 1 <= y' <= y ->
       BlockMap.get m' x y' = BlockMap.get m x (y' - 1)) /\
    (forall x y', 0 <= x < m_w m -> y < y' < m_h m ->
       BlockMap.get m' x y' = BlockMap.get m x y').
Proof.
  intros Hwf Hy Hfilled Hopen.
  pose proof Hwf as (Hwm & Hhm & Hlen). unfold Int.INT_MAX in *.
  destruct (shift_spec m y) as (m1 & Hshift & Hwf1 & Hw1 & Hh1 & Hget1); [done..|].
  exists m1. split.
  - unfold BlockMap.eraseFilledLines.
    rewrite (to_size_t_small (m_h m - 1)) by (unfold Int.SIZE_MAX; lia).
    rewrite to_int_small by (unfold Int.INT_MIN, Int.INT_MAX; lia).
    rewrite (downto_0_split (m_h m) y) by done.
    rewrite for_each_app.
    rewrite for_each_skip.
    2:{ intros y' Hy'%elem_of_reverse%elem_of_seqZ.
        apply erase_step_open; [done|lia|]. apply Hopen; lia. }
    rewrite mbind_Some_l. change ([y] ++ reverse (seqZ 0 y)) with (y :: reverse (seqZ 0 y)).
    rewrite for_each_cons, erase_step_filled, Hshift by done.
    rewrite !mbind_Some_l. change (0 + 1) with 1.
    apply for_each_skip.
    intros y' Hy'%elem_of_reverse%elem_of_seqZ.
    apply erase_step_open; [done|lia|].
    destruct (Hopen 0) as (x0 & Hx0 & _); [lia..|].
    destruct (decide (y' = 0)) as [->|Hne].
    + exists x0. split; [lia|]. rewrite Hget1 by lia. by rewrite decide_True.
    + destruct (Hopen (y' - 1)) as (x & Hx & Hblack); [lia..|].
      exists x. split; [lia|]. rewrite Hget1 by lia.
      rewrite decide_False by done. rewrite decide_True by lia. done.
  - destruct Hwf1 as (_ & _ & Hlen1).
    split_and!; [done|done|by rewrite Hlen1, Hlen, Hw1, Hh1|..].
    + intros x Hx. rewrite Hget1 by lia. by rewrite decide_True.
    + intros x y' Hx Hy'. rewrite Hget1 by lia.
      rewrite decide_False by lia. rewrite decide_True by lia. done.
    + intros x y' Hx Hy'. rewrite Hget1 by lia.
      rewrite decide_False by lia. rewrite decide_False by lia. done.
Qed.

Lemma eraseFilledLines_one_line_witness :
  exists m',
    BlockMap.eraseFilledLines
      (mkBlockMap 2 3 [BLACK; BLACK; RED; BLACK; GREEN; GREEN]) = Some (m', 1).
Proof.
  destruct (eraseFilledLines_one_line
    (mkBlockMap 2 3 [BLACK; BLACK; RED; BLACK; GREEN; GREEN]) 2)
    as (m' & Herase & _).
  - unfold BlockMap.wf. split_and!; vm_compute; congruence.
  - simpl. lia.
  - intros x Hx. simpl in Hx. exists GREEN.
    assert (x = 0 \/ x = 1) as [-> | ->] by lia; split; done.
  - intros y' Hy' Hne. simpl in Hy'. exists 1. split; [simpl; lia|].
    assert (y' = 0 \/ y' = 1) as [-> | ->] by lia; reflexivity.
  - by exists m'.
Defined.

(** C1, evaluated: on the 11 x 20 field whose two bottom lines are filled
    (line 18 red, line 19 green) and whose other lines are empty,
    [eraseFilledLines] returns 1, and the red line, slid down into line 19,
    is still there and still filled. *)
Theorem eraseFilledLines_two_adjacent_lines :
  let m := mkBlockMap 11 20
             (replicate 198 BLACK ++ replicate 11 RED ++ replicate 11 GREEN) in
  let m' := mkBlockMap 11 20 (replicate 209 BLACK ++ replicate 11 RED) in
  BlockMap.is_filled m 18 = Some true /\
  BlockMap.is_filled m 19 = Some true /\
  BlockMap.eraseFilledLines m = Some (m', 1) /\
  BlockMap.is_filled m' 19 = Some true.
Proof. vm_compute. done. Qed.

(** What happens on every field, not only on that one: with two adjacent
    filled lines [y] and [y + 1] and no other, one call removes line
    [y + 1] only; the old line [y] ends in line [y + 1]. *)
Lemma eraseFilledLines_adjacent_pair (m : BlockMap) (y : Z) :
  BlockMap.wf m -> 0 < m_w m -> 0 <= y -> y + 1 < m_h m ->
  BlockMap.filled_line m y -> BlockMap.filled_line m (y + 1) ->
  (forall y', 0 <= y' < m_h m -> y' <> y -> y' <> y + 1 ->
     BlockMap.open_line m y') ->
  exists m', BlockMap.eraseFilledLines m = Some (m', 1) /\
    forall x, 0 <= x < m_w m ->
      BlockMap.get m' x (y + 1) = BlockMap.get m x y.
Proof.
  intros Hwf Hw Hy Hy1 Hfilled Hfilled1 Hopen.
  pose proof Hwf as (Hwm & Hhm & Hlen). unfold Int.INT_MAX in *.
  destruct (shift_spec m (y + 1)) as (m1 & Hshift & Hwf1 & Hw1 & Hh1 & Hget1);
    [done|lia|].
  exists m1. split.
  - unfold BlockMap.eraseFilledLines.
    rewrite (to_size_t_small (m_h m - 1)) by (unfold Int.SIZE_MAX; lia).
    rewrite to_int_small by (unfold Int.INT_MIN, Int.INT_MAX; lia).
    rewrite (downto_0_split (m_h m) (y + 1)) by lia.
    rewrite for_each_app.
    rewrite for_each_skip.
    2:{ intros y' Hy'%elem_of_reverse%elem_of_seqZ.
        apply erase_step_open; [done|lia|]. apply Hopen; lia. }
    rewrite mbind_Some_l.
    change ([y + 1] ++ reverse (seqZ 0 (y + 1)))
      with ((y + 1) :: reverse (seqZ 0 (y + 1))).
    rewrite for_each_cons, erase_step_filled, Hshift by (done || lia).
    rewrite !mbind_Some_l. change (0 + 1) with 1.
    apply for_each_skip.
    intros y' Hy'%elem_of_reverse%elem_of_seqZ.
    apply erase_step_open; [done|lia|].
    destruct (decide (y' = 0)) as [->|Hne].
    + exists 0. split; [lia|]. rewrite Hget1 by lia. by rewrite decide_True.
    + destruct (Hopen (y' - 1)) as (x & Hx & Hblack); [lia..|].
      exists x. split; [lia|]. rewrite Hget1 by lia.
      rewrite decide_False by done. rewrite decide_True by lia. done.
  - intros x Hx. rewrite Hget1 by lia.
    rewrite decide_False by lia. rewrite decide_True by lia. f_equal. lia.
Qed.

(** [eraseFilledLines] returns on every well-formed map, and the map it
    leaves is well-formed and of the same dimensions. *)
Lemma eraseFilledLines_defined m :
  BlockMap.wf m ->
  exists m' n, BlockMap.eraseFilledLines m = Some (m', n) /\
    BlockMap.wf m' /\ m_w m' = m_w m /\ m_h m' = m_h m.
Proof.
  intros Hwf. pose proof Hwf as (Hwm & Hhm & _). unfold Int.INT_MAX in *.
  unfold BlockMap.eraseFilledLines.
  destruct (for_each_defined
    (fun st : BlockMap * Z =>
       BlockMap.wf st.1 /\ m_w st.1 = m_w m /\ m_h st.1 = m_h m)
    (downto_0 (Int.to_int (Int.to_size_t (m_h m - 1))))
    BlockMap.erase_step (m, 0)) as ([m' n] & Hrun & Hwf' & Hw' & Hh');
    [|done|by exists m', n].
  intros y [t k] Hy (Hwft & Hwt & Hht). simpl in *.
  assert (0 <= y < m_h t) as Hyt.
  { unfold downto_0 in Hy. apply elem_of_reverse, elem_of_seqZ in Hy.
    destruct (decide (m_h m = 0)) as [Hz|Hnz].
    - rewrite Hz in Hy. vm_compute in Hy. destruct Hy as [Hy1 Hy2].
      destruct y; done.
    - rewrite (to_size_t_small (m_h m - 1)) in Hy by (unfold Int.SIZE_MAX; lia).
      rewrite to_int_small in Hy by (unfold Int.INT_MIN, Int.INT_MAX; lia).
      lia. }
  unfold BlockMap.erase_step. simpl.
  destruct (is_filled_spec t y) as (r & -> & _); [done..|].
  simpl. destruct r.
  - destruct (shift_spec t y) as (t' & -> & Hwf' & Hw' & Hh' & _); [done..|].
    simpl. eexists. split; [done|]. simpl. split_and!; [done|lia|lia].
  - eexists. split; [done|]. done.
Qed.

(** * putBlock *)

(** C4, evaluated: on the empty 11 x 20 field, the flat I piece with anchor
    (10, 5) has its rightmost cell at x = 11, the width; [putBlock] walks
    the columns up to and including 11 and stores the colour through
    [get(11, 4)], whose subscript 55 is that of cell (0, 5), a cell the
    piece does not cover.  With anchor (5, 21) the piece lies in line 20,
    the height, and the store goes past the end of the vector.  With anchor
    (-2, 0), a position [isPuttable] accepts because the piece lies in line
    -1, the clamped column bound is -1, which the comparison with the
    [size_t] counter reads as SIZE_MAX: the column loop has no exit and
    queries the piece outside its mask. *)
Theorem putBlock_stores_at_width :
  let m := BlockMap.make 11 20 in
  let b := mkBlock BlockShape0 10 5 ROT0 in
  Block.exist b 11 4 = Some true /\
  BlockMap.index m 11 4 = 55 /\ BlockMap.index m 0 5 = 55 /\
  Block.exist b 0 5 = None /\
  BlockMap.putBlock m b =
    Some (mkBlockMap 11 20
            (replicate 52 BLACK ++ replicate 4 LIGHT_BLUE ++
             replicate 164 BLACK)) /\
  BlockMap.putBlock m (mkBlock BlockShape0 5 21 ROT0) = None /\
  BlockMap.isPuttable m (mkBlock BlockShape0 (-2) 0 ROT0) = Some true /\
  BlockMap.putBlock m (mkBlock BlockShape0 (-2) 0 ROT0) = None.
Proof. split_and!; vm_compute; reflexivity. Qed.

(** The two loops of [putBlock] run between the clamped bounds. *)
Lemma putBlock_loops m b :
  BlockMap.putBlock m b =
  ys ← size_range (sy (clamped_range m b)) (ey (clamped_range m b));
  for_each ys
    (fun y m' =>
       xs ← size_range (sx (clamped_range m b)) (ex (clamped_range m b));
       for_each xs (fun x => BlockMap.put_cell b (Block.getColor b) x y) m')
    m.
Proof. reflexivity. Qed.




(** * The loop of run *)

Lemma same_shape_wf m m' : same_shape m m' -> BlockMap.wf m -> BlockMap.wf m'.
Proof.
  intros (Hw & Hh & Hl) (Hwm & Hhm & Hlen). unfold BlockMap.wf.
  rewrite Hw, Hh, Hl. done.
Qed.

Lemma set_same_shape m x y c m' :
  BlockMap.set m x y c = Some m' -> same_shape m m'.
Proof.
  unfold BlockMap.set. case_decide; [|done]. intros [= <-].
  unfold same_shape. simpl. by rewrite length_insert.
Qed.

Lemma for_each_same_shape xs (body : Z -> BlockMap -> option BlockMap) m m' :
  (forall x t t', body x t = Some t' -> same_shape t t') ->
  for_each xs body m = Some m' -> same_shape m m'.
Proof.
  intros Hbody Hrun.
  apply (for_each_invariant (same_shape m) xs body m m'); [|done|done].
  intros x t t' (Hw & Hh & Hl) Hstep.
  destruct (Hbody x t t' Hstep) as (Hw' & Hh' & Hl').
  unfold same_shape. rewrite Hw', Hh', Hl'. done.
Qed.

Lemma shift_same_shape m y m' : BlockMap.shift m y = Some m' -> same_shape m m'.
Proof.
  unfold BlockMap.shift. intros Hrun.
  destruct (for_each _ (BlockMap.copy_line _) m) as [m1|] eqn:Hcopy; [|done].
  simpl in Hrun.
  assert (same_shape m m1) as (Hw1 & Hh1 & Hl1).
  { eapply for_each_same_shape; [|exact Hcopy].
    intros yy t t' Hline. eapply for_each_same_shape; [|exact Hline].
    intros x u u' Hcell. simpl in Hcell.
    destruct (BlockMap.get u _ _); simpl in Hcell; [|done].
    by eapply set_same_shape. }
  assert (same_shape m1 m') as (Hw' & Hh' & Hl').
  { eapply for_each_same_shape; [|exact Hrun].
    intros x u u' Hcell. simpl in Hcell. by eapply set_same_shape. }
  unfold same_shape. rewrite Hw', Hh', Hl'. done.
Qed.

Lemma eraseFilledLines_same_shape m m' n :
  BlockMap.eraseFilledLines m = Some (m', n) -> same_shape m m'.
Proof.
  unfold BlockMap.eraseFilledLines. intros Hrun.
  apply (for_each_invariant (fun st => same_shape m st.1) _ _ _ _) in Hrun;
    [done| |done].
  intros y [t k] [t' k'] (Hw & Hh & Hl). unfold BlockMap.erase_step. simpl.
  destruct (BlockMap.is_filled t y) as [[|]|]; simpl; [| |done].
  - destruct (BlockMap.shift t y) as [u|] eqn:Hshift; simpl; [|done].
    intros [= <- <-]. apply shift_same_shape in Hshift as (Hw' & Hh' & Hl').
    unfold same_shape. rewrite Hw', Hh', Hl'. done.
  - intros [= <- <-]. done.
Qed.

Lemma putBlock_same_shape m b m' :
  BlockMap.putBlock m b = Some m' -> same_shape m m'.
Proof.
  unfold BlockMap.putBlock. intros Hrun.
  apply bind_Some in Hrun as (ys & _ & Hrun).
  eapply for_each_same_shape; [|exact Hrun].
  intros y t t' Hrow. simpl in Hrow.
  apply bind_Some in Hrow as (xs & _ & Hrow).
  eapply for_each_same_shape; [|exact Hrow].
  intros x u u'. unfold BlockMap.put_cell.
  destruct (Block.exist b _ _) as [[|]|]; simpl; [| |done].
  - apply set_same_shape.
  - intros [= <-]. done.
Qed.





(** * Further properties *)

(** ** The pieces *)

Lemma getRange_move b dx dy :
  Block.getRange (Block.move b dx dy) =
  {| sx := sx (Block.getRange b) + dx; sy := sy (Block.getRange b) + dy;
     ex := ex (Block.getRange b) + dx; ey := ey (Block.getRange b) + dy |}.
Proof.
  destruct b as [s ax ay r].
  unfold Block.getRange, Block.move, Block.setPos. simpl.
  destruct r; f_equal; simpl; lia.
Qed.

Lemma exist_move b dx dy x y :
  Block.exist (Block.move b dx dy) (x + dx) (y + dy) = Block.exist b x y.
Proof.
  destruct b as [s ax ay r]. unfold Block.exist.
  assert (Block.exist_idx (Block.move (mkBlock s ax ay r) dx dy) (x + dx) (y + dy)
          = Block.exist_idx (mkBlock s ax ay r) x y) as ->; [|done].
  unfold Block.exist_idx, Block.move, Block.setPos. simpl.
  destruct r; f_equal; simpl; lia.
Qed.

(** X1: [move] carries the piece along, as long as the offsets are values
    of [int] and the range arithmetic of the piece and of the moved piece
    stays inside [int]: the rectangle of
    [getRange] is shifted by the offset, a cell of the rectangle is occupied
    exactly when the cell it is carried to is occupied after the move, and
    shape, colour and rotation state stay. *)
Theorem move_translates_piece (b : Block) (dx dy : Z) :
  Block.no_overflow b -> Int.in_int dx -> Int.in_int dy ->
  Block.no_overflow (Block.move b dx dy) ->
  let b' := Block.move b dx dy in
  shape b' = shape b /\ m_rot b' = m_rot b /\
  Block.getColor b' = Block.getColor b /\
  sx (Block.getRange b') = sx (Block.getRange b) + dx /\
  sy (Block.getRange b') = sy (Block.getRange b) + dy /\
  ex (Block.getRange b') = ex (Block.getRange b) + dx /\
  ey (Block.getRange b') = ey (Block.getRange b) + dy /\
  forall x y, Block.in_range (Block.getRange b) x y ->
    Block.in_range (Block.getRange b') (x + dx) (y + dy) /\
    Block.exist b' (x + dx) (y + dy) = Block.exist b x y.
Proof.
  intros _ _ _ _ b'. subst b'. rewrite getRange_move. simpl.
  split_and!; try done. intros x y [Hx Hy].
  split; [unfold Block.in_range; simpl; lia|apply exist_move].
Qed.

Lemma move_translates_piece_witness :
  Block.exist (Block.move (mkBlock BlockShape5 4 7 ROT90) (-1) 1) (4 + -1) (6 + 1)
  = Block.exist (mkBlock BlockShape5 4 7 ROT90) 4 6.
Proof.
  refine (proj2 (proj2 (proj2 (proj2 (proj2 (proj2 (proj2 (proj2
    (move_translates_piece (mkBlock BlockShape5 4 7 ROT90) (-1) 1
       _ _ _ _))))))) 4 6 _)).
  - unfold Block.no_overflow. split_and!; vm_compute; congruence.
  - unfold Int.in_int. split; vm_compute; congruence.
  - unfold Int.in_int. split; vm_compute; congruence.
  - unfold Block.no_overflow. split_and!; vm_compute; congruence.
  - unfold Block.in_range. split_and!; vm_compute; congruence.
Defined.

Lemma getRange_rotate b :
  Block.getRange (Block.rotate b) = Block.getRange b.
Proof. destruct b as [s ax ay r]. by destruct s, r. Qed.

(** X2: [rotate] is a quarter turn of the mask inside its box: it keeps the
    shape, the anchor and the rectangle of [getRange], and the cell at
    offset (i, j) from the corner (sx, sy) answers after the turn what the
    cell at offset (W - 1 - j, i) answered before; this holds at each of
    the four rotation states and for cells outside the box as well. *)
Theorem rotate_quarter_turn (b : Block) (i j : Z) :
  let rg := Block.getRange b in
  shape (Block.rotate b) = shape b /\
  m_x (Block.rotate b) = m_x b /\ m_y (Block.rotate b) = m_y b /\
  Block.getRange (Block.rotate b) = rg /\
  Block.exist (Block.rotate b) (sx rg + i) (sy rg + j) =
  Block.exist b (sx rg + (Shape.W (shape b) - 1 - j)) (sy rg + i).
Proof.
  intros rg. subst rg. rewrite getRange_rotate.
  split_and!; try done.
  destruct b as [s ax ay r]. unfold Block.exist.
  assert (Block.exist_idx (Block.rotate (mkBlock s ax ay r))
            (sx (Block.getRange (mkBlock s ax ay r)) + i)
            (sy (Block.getRange (mkBlock s ax ay r)) + j) =
          Block.exist_idx (mkBlock s ax ay r)
            (sx (Block.getRange (mkBlock s ax ay r)) +
               (Shape.W (shape (mkBlock s ax ay r)) - 1 - j))
            (sy (Block.getRange (mkBlock s ax ay r)) + i)) as ->; [|done].
  destruct s, r; unfold Block.rotate; simpl; block_unfold; f_equal; lia.
Qed.






(** ** The map *)

Lemma make_spec (w h : Z) :
  0 <= w <= Int.INT_MAX -> 0 <= h <= Int.INT_MAX ->
  BlockMap.wf (BlockMap.make w h) /\
  m_w (BlockMap.make w h) = w /\ m_h (BlockMap.make w h) = h /\
  forall x y, 0 <= x < w -> 0 <= y < h ->
    BlockMap.get (BlockMap.make w h) x y = Some BLACK.
Proof.
  intros Hw Hh. unfold Int.INT_MAX in *.
  assert (BlockMap.wf (BlockMap.make w h)) as Hwf.
  { unfold BlockMap.wf, BlockMap.make, Int.INT_MAX. simpl.
    rewrite length_replicate.
    rewrite to_size_t_small by (unfold Int.SIZE_MAX; nia). done. }
  split_and!; [done..|].
  intros x y Hx Hy.
  destruct (index_in_field (BlockMap.make w h) x y) as [Hi Hlt]; [done..|].
  unfold BlockMap.get. rewrite Hi. simpl in *.
  apply lookup_replicate_2. by rewrite length_replicate in Hlt.
Qed.

(** X4: the constructor, called with dimensions that fit [int], builds a
    well-formed map all of whose cells are BLACK. *)
Theorem make_all_black (w h : Z) :
  0 <= w <= Int.INT_MAX -> 0 <= h <= Int.INT_MAX ->
  BlockMap.wf (BlockMap.make w h) /\
  m_w (BlockMap.make w h) = w /\ m_h (BlockMap.make w h) = h /\
  forall x y, 0 <= x < w -> 0 <= y < h ->
    BlockMap.get (BlockMap.make w h) x y = Some BLACK.
Proof. apply make_spec. Qed.

Lemma make_all_black_witness :
  BlockMap.get (BlockMap.make 11 20) 10 19 = Some BLACK.
Proof.
  refine (proj2 (proj2 (proj2 (make_all_black 11 20 _ _))) 10 19 _ _);
    unfold Int.INT_MAX; lia.
Defined.

(** X5: on a well-formed map [isPuttable] returns for every block whose
    range arithmetic stays inside [int], also one that lies partly or wholly
    outside the field: every read of SHAPE is inside the array and every
    read of the vector inside the vector. *)
Theorem isPuttable_reads_in_bounds (m : BlockMap) (b : Block) :
  BlockMap.wf m -> Block.no_overflow b ->
  (forall x y, Block.in_range (Block.getRange b) x y ->
     is_Some (BlockMap.check_cell m b x y) /\ is_Some (Block.exist b x y)) /\
  is_Some (BlockMap.isPuttable m b).
Proof.
  intros Hwf _. split; [|by apply isPuttable_defined].
  intros x y Hr. split; [by apply check_cell_defined|by apply Block_exist_defined].
Qed.

Lemma isPuttable_reads_in_bounds_witness :
  is_Some (BlockMap.isPuttable (BlockMap.make 11 20)
             (mkBlock BlockShape0 (-40) 30 ROT90)).
Proof.
  refine (proj2 (isPuttable_reads_in_bounds (BlockMap.make 11 20)
                   (mkBlock BlockShape0 (-40) 30 ROT90) _ _)).
  - unfold BlockMap.wf. split_and!; vm_compute; congruence.
  - unfold Block.no_overflow. split_and!; vm_compute; congruence.
Defined.


Lemma isPuttable_free_true m b :
  BlockMap.wf m -> Block.no_overflow b ->
  (forall x y, Block.in_range (Block.getRange b) x y -> cell_free m b x y) ->
  BlockMap.isPuttable m b = Some true.
Proof.
  intros Hwf (_ & _ & Hex & Hey) Hfree.
  destruct (isPuttable_defined m b Hwf) as [[|] Hr]; [done|].
  unfold BlockMap.isPuttable in Hr.
  apply all_cells_false in Hr as (y & Hy%elem_of_int_range & Hrow).
  apply all_cells_false in Hrow as (x & Hx%elem_of_int_range & Hc).
  eapply check_cell_spec in Hc as [_ Hblocked]; [|lia..].
  destruct (cell_free_not_blocked m b x y); [by apply Hfree|by apply Hblocked].
Qed.


(** X6: on a field at least three cells wide and one line high, the first
    piece the application draws is placeable, whatever value the twister
    yields: the game cannot end on its first piece. *)
Theorem first_piece_puttable (w h v : Z) :
  3 <= w <= Int.INT_MAX -> 1 <= h <= Int.INT_MAX ->
  exists s, TetrisApp.init w h v = Some s /\
    TetrisApp.next_block s = false /\
    TetrisApp.m_block_map s = BlockMap.make w h /\
    m_x (TetrisApp.block s) = w `div` 2 /\ m_y (TetrisApp.block s) = 0 /\
    BlockMap.isPuttable (BlockMap.make w h) (TetrisApp.block s) = Some true.
Proof.
  intros Hw Hh. unfold Int.INT_MAX in *.
  assert (1 <= w `div` 2 /\ w `div` 2 + 1 < w) as Hc.
  { pose proof (Z.div_mod w 2). pose proof (Z.mod_pos_bound w 2). lia. }
  unfold TetrisApp.init.
  rewrite to_int_small by (unfold Int.INT_MIN, Int.INT_MAX; lia).
  destruct (call_defined (RandomBlockGenerator.mk (w `div` 2) 0) v) as [shp ->].
  simpl. eexists. split; [done|]. simpl. split_and!; [done..|].
  destruct (make_spec w h) as (Hwf & Hmw & Hmh & Hblack);
    [unfold Int.INT_MAX; lia..|].
  generalize dependent (w `div` 2). intros c Hc.
  apply isPuttable_free_true; [done| |].
  { unfold Block.no_overflow, Int.INT_MIN, Int.INT_MAX.
    destruct shp; block_unfold; lia. }
  intros x y Hin Hex.
  destruct (in_range_offsets shp c 0 ROT0 x y Hin) as [Hx Hy].
  rewrite Hmw, Hmh.
  destruct Hx as [->|[->|[->| ->]]]; destruct Hy as [->|[->|[->| ->]]];
    rewrite exist_translate in Hex;
    destruct shp; vm_compute in Hex; try discriminate Hex;
    first [ left; lia | right; split_and!; [lia..|apply Hblack; lia] ].
Qed.

Lemma first_piece_puttable_witness :
  exists s, TetrisApp.init 11 20 9 = Some s /\
    BlockMap.isPuttable (BlockMap.make 11 20) (TetrisApp.block s) = Some true.
Proof.
  destruct (first_piece_puttable 11 20 9) as (s & Hs & _ & _ & _ & _ & Hp);
    [unfold Int.INT_MAX; lia..|].
  exists s. done.
Defined.

Lemma in_field_same_dims m m' b :
  m_w m' = m_w m -> m_h m' = m_h m -> in_field m b -> in_field m' b.
Proof. unfold in_field. intros -> ->. done. Qed.

Lemma put_cell_in_int b col x y m :
  0 <= x <= Int.INT_MAX -> 0 <= y <= Int.INT_MAX ->
  BlockMap.put_cell b col x y m =
  e ← Block.exist b x y; if e : bool then BlockMap.set m x y col else Some m.
Proof.
  intros Hx Hy. unfold BlockMap.put_cell.
  by rewrite !to_int_small by (unfold Int.INT_MIN, Int.INT_MAX in *; lia).
Qed.

(** One line of [putBlock] over the columns [xs]. *)
Lemma put_row b col y xs m :
  BlockMap.wf m -> 0 <= y <= Int.INT_MAX -> in_field m b ->
  (forall x, x ∈ xs ->
     0 <= x <= Int.INT_MAX /\ Block.in_range (Block.getRange b) x y) ->
  exists m',
    for_each xs (fun x => BlockMap.put_cell b col x y) m = Some m' /\
    BlockMap.wf m' /\ m_w m' = m_w m /\ m_h m' = m_h m /\
    forall x' y', 0 <= x' < m_w m -> 0 <= y' < m_h m ->
      BlockMap.get m' x' y' =
      if decide (y' = y /\ x' ∈ xs /\ Block.exist b x' y' = Some true)
      then Some col else BlockMap.get m x' y'.
Proof.
  intros Hwf Hy Hfield Hxs. revert m Hwf Hfield.
  induction xs as [|x xs IH]; intros m Hwf Hfield.
  - exists m. split_and!; [done..|]. intros x' y' _ _.
    rewrite decide_False; [done|]. intros (_ & Hin & _). inversion Hin.
  - destruct (Hxs x) as [Hx Hin]; [constructor|].
    rewrite for_each_cons, put_cell_in_int by lia.
    destruct (Block_exist_defined b x y Hin) as [e He]. rewrite He.
    rewrite mbind_Some_l.
    assert (forall x0, x0 ∈ xs ->
      0 <= x0 <= Int.INT_MAX /\ Block.in_range (Block.getRange b) x0 y) as Hxs'.
    { intros x0 Hx0. apply Hxs. by constructor. }
    destruct e.
    + destruct (Hfield x y He) as [Hxw Hyh]; [lia|].
      destruct (set_spec m x y col)
        as (m1 & -> & Hwf1 & Hw1 & Hh1 & Hsame & Hother); [done|lia..|].
      rewrite mbind_Some_l.
      destruct (IH Hxs' m1 Hwf1) as (m' & Hrun & Hwf' & Hw' & Hh' & Hget).
      { by eapply in_field_same_dims. }
      exists m'. split_and!; [done|done|lia|lia|].
      intros x' y' Hx' Hy'. rewrite Hget by lia.
      destruct (decide ((x', y') = (x, y))) as [[= -> ->]|Hne].
      * rewrite Hsame. rewrite (decide_True (P := _ /\ x ∈ x :: xs /\ _)).
        -- by case_decide.
        -- split_and!; [done|constructor|done].
      * rewrite Hother by (done || lia).
        destruct (decide (y' = y /\ x' ∈ xs /\ Block.exist b x' y' = Some true))
          as [(Hy1 & Hx1 & HE)|Hn].
        -- rewrite decide_True; [done|].
           split_and!; [done|by apply elem_of_cons; right|done].
        -- rewrite decide_False; [done|]. intros (Hy1 & Hx1 & HE).
           apply elem_of_cons in Hx1 as [Hx1|Hx1].
           ++ apply Hne. by rewrite Hx1, Hy1.
           ++ apply Hn. done.
    + rewrite mbind_Some_l.
      destruct (IH Hxs' m Hwf Hfield) as (m' & Hrun & Hwf' & Hw' & Hh' & Hget).
      exists m'. split_and!; [done..|].
      intros x' y' Hx' Hy'. rewrite Hget by lia.
      destruct (decide (y' = y /\ x' ∈ xs /\ Block.exist b x' y' = Some true))
        as [(Hy1 & Hx1 & HE)|Hn].
      * rewrite decide_True; [done|].
        split_and!; [done|by apply elem_of_cons; right|done].
      * rewrite decide_False; [done|]. intros (Hy1 & Hx1 & HE).
        apply elem_of_cons in Hx1 as [Hx1|Hx1].
        -- rewrite Hx1, Hy1 in HE. congruence.
        -- apply Hn. done.
Qed.

(** The two loops of [putBlock] over the lines [ys] and the columns [xs]. *)
Lemma put_rows b col ys xs m :
  BlockMap.wf m -> in_field m b ->
  (forall y, y ∈ ys -> 0 <= y <= Int.INT_MAX) ->
  (forall x, x ∈ xs -> 0 <= x <= Int.INT_MAX) ->
  (forall x y, x ∈ xs -> y ∈ ys -> Block.in_range (Block.getRange b) x y) ->
  exists m',
    for_each ys
      (fun y m => for_each xs (fun x => BlockMap.put_cell b col x y) m) m
    = Some m' /\
    BlockMap.wf m' /\ m_w m' = m_w m /\ m_h m' = m_h m /\
    forall x' y', 0 <= x' < m_w m -> 0 <= y' < m_h m ->
      BlockMap.get m' x' y' =
      if decide (y' ∈ ys /\ x' ∈ xs /\ Block.exist b x' y' = Some true)
      then Some col else BlockMap.get m x' y'.
Proof.
  intros Hwf Hfield Hys Hxs Hin. revert m Hwf Hfield.
  induction ys as [|y ys IH]; intros m Hwf Hfield.
  - exists m. split_and!; [done..|]. intros x' y' _ _.
    rewrite decide_False; [done|]. intros (Hy & _). inversion Hy.
  - rewrite for_each_cons.
    destruct (put_row b col y xs m) as (m1 & -> & Hwf1 & Hw1 & Hh1 & Hget1);
      [done|apply Hys; constructor|done| |].
    { intros x Hx. split; [by apply Hxs|]. apply Hin; [done|constructor]. }
    simpl.
    destruct IH with (m := m1) as (m' & Hrun & Hwf' & Hw' & Hh' & Hget);
      [intros; apply Hys; by constructor
      |intros; apply Hin; [done|by constructor]
      |done|by eapply in_field_same_dims|].
    exists m'. split_and!; [done|done|lia|lia|].
    intros x' y' Hx' Hy'. rewrite Hget by lia. rewrite Hget1 by lia.
    destruct (decide (y' ∈ ys /\ x' ∈ xs /\ Block.exist b x' y' = Some true))
      as [(Hy1 & Hx1 & HE)|Hn].
    + rewrite decide_True; [done|].
      split_and!; [by apply elem_of_cons; right|done..].
    + destruct (decide (y' = y /\ x' ∈ xs /\ Block.exist b x' y' = Some true))
        as [(Hy1 & Hx1 & HE)|Hn'].
      * rewrite decide_True; [done|].
        split_and!; [by apply elem_of_cons; left|done..].
      * rewrite decide_False; [done|]. intros (Hy1 & Hx1 & HE).
        apply elem_of_cons in Hy1 as [Hy1|Hy1].
        -- apply Hn'. done.
        -- apply Hn. done.
Qed.

Lemma getColor_not_BLACK b : Block.getColor b <> BLACK.
Proof. unfold Block.getColor. by destruct (shape b). Qed.

Lemma putBlock_spec m b :
  BlockMap.wf m -> Block.no_overflow b -> in_field m b ->
  0 <= ex (Block.getRange b) -> 0 <= ey (Block.getRange b) ->
  exists m', BlockMap.putBlock m b = Some m' /\
    BlockMap.wf m' /\ m_w m' = m_w m /\ m_h m' = m_h m /\
    forall x y, 0 <= x < m_w m -> 0 <= y < m_h m ->
      BlockMap.get m' x y =
      if decide (Block.exist b x y = Some true)
      then Some (Block.getColor b) else BlockMap.get m x y.
Proof.
  intros Hwf (Hsx & Hsy & Hex & Hey) Hfield Hex0 Hey0.
  pose proof Hwf as (Hwm & Hhm & _).
  assert (sx (Block.getRange b) <= ex (Block.getRange b) /\
          sy (Block.getRange b) <= ey (Block.getRange b)) as [Hsxex Hsyey].
  { destruct b as [s ax ay r]. destruct s, r; block_unfold; lia. }
  unfold Int.INT_MIN, Int.INT_MAX in *.
  unfold BlockMap.putBlock.
  rewrite !to_int_small by (unfold Int.INT_MIN, Int.INT_MAX; lia).
  set (sx' := 0 `max` sx (Block.getRange b)).
  set (sy' := 0 `max` sy (Block.getRange b)).
  set (ex' := m_w m `min` ex (Block.getRange b)).
  set (ey' := m_h m `min` ey (Block.getRange b)).
  rewrite (size_range_small sy' ey') by (unfold Int.INT_MAX; lia).
  rewrite mbind_Some_l.
  rewrite (for_each_ext _ _
    (fun y m => for_each (seqZ sx' (ex' - sx' + 1))
                  (fun x => BlockMap.put_cell b (Block.getColor b) x y) m)).
  2:{ intros y t.
      by rewrite (size_range_small sx' ex') by (unfold Int.INT_MAX; lia). }
  destruct (put_rows b (Block.getColor b) (seqZ sy' (ey' - sy' + 1))
              (seqZ sx' (ex' - sx' + 1)) m)
    as (m' & Hrun & Hwf' & Hw' & Hh' & Hget); [done|done|..].
  { intros y Hy%elem_of_seqZ. unfold Int.INT_MAX. lia. }
  { intros x Hx%elem_of_seqZ. unfold Int.INT_MAX. lia. }
  { intros x y Hx%elem_of_seqZ Hy%elem_of_seqZ. unfold Block.in_range. lia. }
  exists m'. split_and!; [done..|].
  intros x y Hx Hy. rewrite Hget by done.
  destruct (decide (Block.exist b x y = Some true)) as [He|He].
  - rewrite decide_True; [done|].
    destruct (Block_exist_in_range b x y _ He) as [Hxr Hyr].
    rewrite !elem_of_seqZ. split_and!; [lia..|done].
  - rewrite decide_False; [done|]. by intros (_ & _ & ?).
Qed.

(** X7: [putBlock] of a piece all of whose cells at y >= 0 lie in the field,
    and whose rectangle reaches column 0 and line 0, returns a map of the
    same dimensions in which every cell of the field the piece occupies
    holds the colour of the piece, a colour other than BLACK, and every
    other cell of the field is as before. *)
Theorem putBlock_stores_piece (m : BlockMap) (b : Block) :
  BlockMap.wf m -> Block.no_overflow b -> in_field m b ->
  0 <= ex (Block.getRange b) -> 0 <= ey (Block.getRange b) ->
  Block.getColor b <> BLACK /\
  exists m', BlockMap.putBlock m b = Some m' /\
    BlockMap.wf m' /\ m_w m' = m_w m /\ m_h m' = m_h m /\
    forall x y, 0 <= x < m_w m -> 0 <= y < m_h m ->
      BlockMap.get m' x y =
      if decide (Block.exist b x y = Some true)
      then Some (Block.getColor b) else BlockMap.get m x y.
Proof.
  intros. split; [apply getColor_not_BLACK|by apply putBlock_spec].
Qed.

Lemma putBlock_stores_piece_witness :
  exists m',
    BlockMap.putBlock (BlockMap.make 4 2) (mkBlock BlockShape5 1 1 ROT0)
    = Some m'.
Proof.
  destruct (putBlock_stores_piece (BlockMap.make 4 2)
              (mkBlock BlockShape5 1 1 ROT0)) as (_ & m' & Hput & _).
  - unfold BlockMap.wf. split_and!; vm_compute; congruence.
  - unfold Block.no_overflow. split_and!; vm_compute; congruence.
  - intros x y He Hy.
    destruct (in_range_offsets _ _ _ _ x y (Block_exist_in_range _ x y _ He))
      as [Hx Hy'].
    destruct Hx as [->|[->|[->| ->]]]; destruct Hy' as [->|[->|[->| ->]]];
      vm_compute in He; try discriminate He; simpl; lia.
  - vm_compute. congruence.
  - vm_compute. congruence.
  - by exists m'.
Defined.

(** ** eraseFilledLines on any map *)

Lemma erase_step_count y t k t' k' :
  BlockMap.erase_step y (t, k) = Some (t', k') -> k <= k' <= k + 1.
Proof.
  unfold BlockMap.erase_step. simpl.
  destruct (BlockMap.is_filled t y) as [[|]|]; simpl; [| |done].
  - destruct (BlockMap.shift t y); simpl; [|done]. intros [= <- <-]. lia.
  - intros [= <- <-]. lia.
Qed.

Lemma erase_loop_count ys t k t' k' :
  for_each ys BlockMap.erase_step (t, k) = Some (t', k') ->
  k <= k' <= k + Z.of_nat (length ys).
Proof.
  revert t k. induction ys as [|y ys IH]; intros t k; simpl.
  - intros [= <- <-]. lia.
  - destruct (BlockMap.erase_step y (t, k)) as [[t1 k1]|] eqn:Hstep; simpl;
      [|done].
    intros Hrun. apply IH in Hrun. apply erase_step_count in Hstep. lia.
Qed.

Lemma length_downto_0 h :
  0 <= h <= Int.INT_MAX ->
  length (downto_0 (Int.to_int (Int.to_size_t (h - 1)))) = Z.to_nat h.
Proof.
  intros Hh. unfold downto_0, Int.INT_MAX in *.
  rewrite length_reverse, length_seqZ.
  destruct (decide (h = 0)) as [->|Hne]; [done|].
  rewrite (to_size_t_small (h - 1)) by (unfold Int.SIZE_MAX; lia).
  rewrite to_int_small by (unfold Int.INT_MIN, Int.INT_MAX; lia).
  f_equal. lia.
Qed.

Lemma elem_of_downto_0 h y :
  0 <= h <= Int.INT_MAX ->
  y ∈ downto_0 (Int.to_int (Int.to_size_t (h - 1))) <-> 0 <= y < h.
Proof.
  intros Hh. unfold downto_0, Int.INT_MAX in *.
  rewrite elem_of_reverse, elem_of_seqZ.
  destruct (decide (h = 0)) as [->|Hne].
  - change (Int.to_int (Int.to_size_t (0 - 1))) with (-1). lia.
  - rewrite (to_size_t_small (h - 1)) by (unfold Int.SIZE_MAX; lia).
    rewrite to_int_small by (unfold Int.INT_MIN, Int.INT_MAX; lia). lia.
Qed.

(** X8: on every well-formed map [eraseFilledLines] returns without a read
    or a store outside the vector; the map it leaves is well-formed and of
    the same dimensions, and the number it returns lies between 0 and the
    height. *)
Theorem eraseFilledLines_stays_in_bounds (m : BlockMap) :
  BlockMap.wf m ->
  exists m' n, BlockMap.eraseFilledLines m = Some (m', n) /\
    BlockMap.wf m' /\ m_w m' = m_w m /\ m_h m' = m_h m /\
    0 <= n <= m_h m.
Proof.
  intros Hwf. pose proof Hwf as (_ & Hhm & _).
  destruct (eraseFilledLines_defined m Hwf) as (m' & n & Hrun & Hwf' & Hw & Hh).
  exists m', n. split_and!; try done;
    unfold BlockMap.eraseFilledLines in Hrun;
    apply erase_loop_count in Hrun;
    rewrite length_downto_0 in Hrun by done; lia.
Qed.

Lemma eraseFilledLines_stays_in_bounds_witness :
  exists m' n,
    BlockMap.eraseFilledLines (mkBlockMap 2 2 [RED; RED; BLACK; GREEN])
    = Some (m', n) /\ 0 <= n <= 2.
Proof.
  destruct (eraseFilledLines_stays_in_bounds
              (mkBlockMap 2 2 [RED; RED; BLACK; GREEN]))
    as (m' & n & Hrun & _ & _ & _ & Hn).
  - unfold BlockMap.wf. split_and!; vm_compute; congruence.
  - exists m', n. done.
Defined.

Lemma erase_loop_zero ys m m' :
  BlockMap.wf m -> (forall y, y ∈ ys -> 0 <= y < m_h m) ->
  for_each ys BlockMap.erase_step (m, 0) = Some (m', 0) ->
  m' = m /\ forall y, y ∈ ys -> BlockMap.open_line m y.
Proof.
  intros Hwf. induction ys as [|y ys IH]; intros Hys Hrun.
  - simpl in Hrun. injection Hrun as <-. split; [done|].
    intros y Hy. inversion Hy.
  - rewrite for_each_cons in Hrun.
    destruct (is_filled_spec m y) as (r & Hr & Htrue & Hfalse);
      [done|apply Hys; constructor|].
    destruct r.
    + exfalso.
      rewrite erase_step_filled in Hrun;
        [|done|apply Hys; constructor|by apply Htrue].
      destruct (BlockMap.shift m y) as [m1|]; [|done].
      rewrite !mbind_Some_l in Hrun.
      apply erase_loop_count in Hrun. lia.
    + rewrite erase_step_open in Hrun;
        [|done|apply Hys; constructor|by apply Hfalse].
      rewrite mbind_Some_l in Hrun.
      destruct IH as [-> Hopen]; [|done|].
      { intros y' Hy'. apply Hys. by constructor. }
      split; [done|]. intros y' [->|Hy']%elem_of_cons; [by apply Hfalse|].
      by apply Hopen.
Qed.

(** X9: on a well-formed map [eraseFilledLines] returns 0 exactly when every
    line of the field holds an empty cell, and then it leaves the map as it
    was. *)
Theorem eraseFilledLines_zero_iff (m : BlockMap) :
  BlockMap.wf m ->
  exists m' n, BlockMap.eraseFilledLines m = Some (m', n) /\
    (n = 0 <-> forall y, 0 <= y < m_h m -> BlockMap.open_line m y) /\
    (n = 0 -> m' = m).
Proof.
  intros Hwf. pose proof Hwf as (_ & Hhm & _).
  destruct (eraseFilledLines_defined m Hwf) as (m' & n & Hrun & _).
  exists m', n. split; [done|].
  unfold BlockMap.eraseFilledLines in Hrun.
  assert (n = 0 -> m' = m /\
          forall y, 0 <= y < m_h m -> BlockMap.open_line m y) as Hzero.
  { intros ->. apply erase_loop_zero in Hrun as [-> Hopen]; [|done|].
    - split; [done|]. intros y Hy. apply Hopen. by apply elem_of_downto_0.
    - intros y Hy. by apply elem_of_downto_0 in Hy. }
  split; [split|].
  - intros Hn. by apply Hzero.
  - intros Hopen. rewrite for_each_skip in Hrun.
    + by injection Hrun as _ <-.
    + intros y Hy%elem_of_downto_0; [|done].
      apply erase_step_open; [done..|by apply Hopen].
  - intros Hn. by apply Hzero.
Qed.

Lemma eraseFilledLines_zero_iff_witness :
  exists m' n,
    BlockMap.eraseFilledLines (mkBlockMap 2 2 [RED; BLACK; BLACK; GREEN])
    = Some (m', n) /\
    (n = 0 -> m' = mkBlockMap 2 2 [RED; BLACK; BLACK; GREEN]).
Proof.
  destruct (eraseFilledLines_zero_iff
              (mkBlockMap 2 2 [RED; BLACK; BLACK; GREEN]))
    as (m' & n & Hrun & _ & Hsame).
  - unfold BlockMap.wf. split_and!; vm_compute; congruence.
  - exists m', n. done.
Defined.

(** ** The controller *)





Lemma invoke_shape a b : shape (invoke a b) = shape b.
Proof. by destruct a. Qed.

Lemma TryBlockAction_result block m a :
  BlockMap.wf m ->
  exists r b', TryBlockAction block m a = Some (r, b', m) /\
    BlockMap.isPuttable m (invoke a block) = Some r /\
    b' = (if r then invoke a block else block).
Proof.
  intros Hwf. unfold TryBlockAction, Block.clone.
  destruct (isPuttable_defined m (invoke a block) Hwf) as [p Hp].
  rewrite Hp, mbind_Some_l. destruct p.
  - exists true, (invoke a block). by rewrite assign_invoke.
  - by exists false, block.
Qed.

(** X10: a piece that is placeable stays placeable through
    [TryBlockAction], whatever the action and whether or not it is
    accepted, as long as applying the action stays inside [int] (the
    arguments of the action, the range arithmetic of the piece and that of
    the transformed piece); its shape and the map stay as they are. *)
Theorem TryBlockAction_keeps_puttable (block : Block) (m : BlockMap)
    (a : Action) :
  BlockMap.wf m -> action_no_overflow a block ->
  BlockMap.isPuttable m block = Some true ->
  exists r b', TryBlockAction block m a = Some (r, b', m) /\
    BlockMap.isPuttable m b' = Some true /\ shape b' = shape block.
Proof.
  intros Hwf _ Hput.
  destruct (TryBlockAction_result block m a Hwf) as (r & b' & Hrun & Hr & ->).
  exists r, (if r then invoke a block else block).
  split; [done|]. destruct r; [|done]. split; [done|apply invoke_shape].
Qed.

Lemma TryBlockAction_keeps_puttable_witness :
  exists r b',
    TryBlockAction (mkBlock BlockShape3 1 19 ROT0) (BlockMap.make 11 20)
      (Move 0 1) = Some (r, b', BlockMap.make 11 20) /\
    BlockMap.isPuttable (BlockMap.make 11 20) b' = Some true.
Proof.
  destruct (TryBlockAction_keeps_puttable (mkBlock BlockShape3 1 19 ROT0)
              (BlockMap.make 11 20) (Move 0 1)) as (r & b' & Hrun & Hput & _).
  - unfold BlockMap.wf. split_and!; vm_compute; congruence.
  - unfold action_no_overflow, action_in_int, Int.in_int, Block.no_overflow.
    split_and!; vm_compute; congruence.
  - vm_compute. reflexivity.
  - by exists r, b'.
Defined.

(** What the key handling keeps of a state, the piece apart. *)
Lemma on_key_keeps pressed a s :
  BlockMap.wf (TetrisApp.m_block_map s) ->
  BlockMap.isPuttable (TetrisApp.m_block_map s) (TetrisApp.block s) = Some true ->
  exists s', TetrisApp.on_key pressed a s = Some s' /\ same_field s s' /\
    TetrisApp.m_rand_block_gen s' = TetrisApp.m_rand_block_gen s /\
    shape (TetrisApp.block s') = shape (TetrisApp.block s) /\
    BlockMap.isPuttable (TetrisApp.m_block_map s') (TetrisApp.block s')
      = Some true.
Proof.
  intros Hwf Hput. unfold TetrisApp.on_key. destruct pressed.
  - destruct (TryBlockAction_result (TetrisApp.block s)
      (TetrisApp.m_block_map s) a Hwf) as (r & b' & -> & Hr & ->).
    rewrite mbind_Some_l. eexists. split; [done|]. unfold same_field. simpl.
    split_and!; try done; destruct r; try done. apply invoke_shape.
  - exists s. done.
Qed.

(** X11: the key handling never touches the field: for every key, or none,
    it returns on a well-formed map with a placeable piece, provided the
    range arithmetic of the piece and of the four pieces the keys may try
    stays inside [int]; the map, the erased-line count and the spawn flag
    are as before, the piece has the same shape and is still placeable, and
    the loop is left exactly when the key is q. *)
Theorem input_keeps_field (i : TetrisApp.Inputs) (s : TetrisApp.State) :
  BlockMap.wf (TetrisApp.m_block_map s) ->
  Block.no_overflow (TetrisApp.block s) ->
  keys_no_overflow (TetrisApp.block s) ->
  BlockMap.isPuttable (TetrisApp.m_block_map s) (TetrisApp.block s) = Some true ->
  exists s',
    TetrisApp.input i s = Some (after_keys i s') /\
    TetrisApp.m_block_map s' = TetrisApp.m_block_map s /\
    TetrisApp.n_erased_lines s' = TetrisApp.n_erased_lines s /\
    TetrisApp.next_block s' = TetrisApp.next_block s /\
    shape (TetrisApp.block s') = shape (TetrisApp.block s) /\
    BlockMap.isPuttable (TetrisApp.m_block_map s') (TetrisApp.block s')
      = Some true.
Proof.
  intros Hwf _ _ Hput. unfold TetrisApp.input, after_keys.
  destruct (TetrisApp.key i) as [k|]; [|by exists s].
  destruct (on_key_keeps (Ascii.eqb k " " || Ascii.eqb k "r") Rotate s Hwf Hput)
    as (s1 & -> & (Hm1 & Hn1 & He1) & _ & Hs1 & Hp1).
  rewrite <- Hm1 in Hwf. rewrite mbind_Some_l.
  destruct (on_key_keeps (Ascii.eqb k "h") (Move (-1) 0) s1 Hwf Hp1)
    as (s2 & -> & (Hm2 & Hn2 & He2) & _ & Hs2 & Hp2).
  rewrite <- Hm2 in Hwf. rewrite mbind_Some_l.
  destruct (on_key_keeps (Ascii.eqb k "l") (Move 1 0) s2 Hwf Hp2)
    as (s3 & -> & (Hm3 & Hn3 & He3) & _ & Hs3 & Hp3).
  rewrite <- Hm3 in Hwf. rewrite mbind_Some_l.
  destruct (on_key_keeps (Ascii.eqb k "j") (Move 0 1) s3 Hwf Hp3)
    as (s4 & -> & (Hm4 & Hn4 & He4) & _ & Hs4 & Hp4).
  rewrite mbind_Some_l. exists s4. split.
  - by destruct (Ascii.eqb k "q").
  - split_and!; [congruence..|done].
Qed.

Lemma input_keeps_field_witness :
  exists s',
    TetrisApp.input (TetrisApp.mkInputs 0 false (Some "h"%char))
      (TetrisApp.mkState (BlockMap.make 11 20) (RandomBlockGenerator.mk 5 0)
         0 false (mkBlock BlockShape3 5 3 ROT0)) = Some (TetrisApp.Continue s') /\
    TetrisApp.m_block_map s' = BlockMap.make 11 20.
Proof.
  destruct (input_keeps_field (TetrisApp.mkInputs 0 false (Some "h"%char))
    (TetrisApp.mkState (BlockMap.make 11 20) (RandomBlockGenerator.mk 5 0)
       0 false (mkBlock BlockShape3 5 3 ROT0))) as (s' & Hrun & Hm & _).
  - unfold BlockMap.wf. split_and!; vm_compute; congruence.
  - unfold Block.no_overflow. split_and!; vm_compute; congruence.
  - unfold keys_no_overflow, Block.no_overflow. split_and!; vm_compute; congruence.
  - vm_compute. reflexivity.
  - exists s'. split; [exact Hrun|exact Hm].
Defined.

(** X12: a key other than space, r, h, l and j changes nothing: the state
    is handed on as it is, to the next round of the loop or, for q, out of
    it; so does the absence of a key. *)
Theorem input_ignores_other_keys (i : TetrisApp.Inputs) (s : TetrisApp.State) :
  (forall k, TetrisApp.key i = Some k ->
     k <> " "%char /\ k <> "r"%char /\ k <> "h"%char /\ k <> "l"%char /\
     k <> "j"%char) ->
  TetrisApp.input i s = Some (after_keys i s).
Proof.
  intros Hk. unfold TetrisApp.input, after_keys.
  destruct (TetrisApp.key i) as [k|]; [|done].
  destruct (Hk k eq_refl) as (H1 & H2 & H3 & H4 & H5).
  apply Ascii.eqb_neq in H1, H2, H3, H4, H5.
  rewrite H1, H2, H3, H4, H5. simpl.
  by destruct (Ascii.eqb k "q").
Qed.

Lemma input_ignores_other_keys_witness :
  TetrisApp.input (TetrisApp.mkInputs 0 false (Some "x"%char))
    (TetrisApp.mkState (BlockMap.make 11 20) (RandomBlockGenerator.mk 5 0)
       0 false (mkBlock BlockShape3 5 3 ROT0))
  = Some (TetrisApp.Continue
    (TetrisApp.mkState (BlockMap.make 11 20) (RandomBlockGenerator.mk 5 0)
       0 false (mkBlock BlockShape3 5 3 ROT0))).
Proof.
  refine (input_ignores_other_keys
            (TetrisApp.mkInputs 0 false (Some "x"%char)) _ _).
  intros k [= <-]. split_and!; discriminate.
Defined.


Lemma input_not_game_over i s o :
  TetrisApp.input i s = Some o -> is_game_over o = false.
Proof.
  unfold TetrisApp.input. destruct (TetrisApp.key i) as [k|]; [|by intros [= <-]].
  intros (s1 & _ & H1)%bind_Some. apply bind_Some in H1 as (s2 & _ & H2).
  apply bind_Some in H2 as (s3 & _ & H3). apply bind_Some in H3 as (s4 & _ & H4).
  destruct (Ascii.eqb k "q"); by injection H4 as <-.
Qed.

(** X13: an iteration ends the game in one case only: the spawn flag is
    set, the generator yields a piece, and [isPuttable] rejects that piece
    on the map; the state handed out then holds the unchanged map and
    count and the rejected piece. *)
Theorem game_over_iff (i : TetrisApp.Inputs) (s s' : TetrisApp.State) :
  TetrisApp.iteration i s = Some (TetrisApp.GameOver s') <->
  TetrisApp.next_block s = true /\
  exists b,
    RandomBlockGenerator.call (TetrisApp.m_rand_block_gen s)
      (TetrisApp.mt_value i) = Some b /\
    BlockMap.isPuttable (TetrisApp.m_block_map s) b = Some false /\
    s' = TetrisApp.mkState (TetrisApp.m_block_map s)
           (TetrisApp.m_rand_block_gen s) (TetrisApp.n_erased_lines s) false b.
Proof.
  unfold TetrisApp.iteration, TetrisApp.spawn. split.
  - destruct (TetrisApp.next_block s).
    + intros ([s1 over] & Hspawn & Hrest)%bind_Some.
      apply bind_Some in Hspawn as (b & Hb & Hspawn).
      apply bind_Some in Hspawn as (p & Hp & Heq).
      injection Heq as <- <-. split; [done|]. exists b.
      destruct p; simpl in Hrest.
      * apply bind_Some in Hrest as (s2 & _ & Hrest).
        apply bind_Some in Hrest as (s3 & _ & Hrest).
        by apply input_not_game_over in Hrest.
      * by injection Hrest as <-.
    + rewrite mbind_Some_l.
      intros (s2 & _ & Hrest)%bind_Some.
      apply bind_Some in Hrest as (s3 & _ & Hrest).
      by apply input_not_game_over in Hrest.
  - intros (-> & b & -> & Hp & ->). rewrite mbind_Some_l, Hp. done.
Qed.





(** ** eraseFilledLines, line by line *)

Lemma kept_lines_nonpos f z : z <= 0 -> kept_lines f (Z.to_nat z) = [].
Proof. intros Hz. by replace (Z.to_nat z) with 0%nat by lia. Qed.

Lemma kept_lines_open f o :
  0 <= o -> f o = false ->
  kept_lines f (Z.to_nat (o + 1)) = o :: kept_lines f (Z.to_nat o).
Proof.
  intros Ho Hf. replace (Z.to_nat (o + 1)) with (S (Z.to_nat o)) by lia.
  simpl. rewrite Z2Nat.id by done. by rewrite Hf.
Qed.

Lemma kept_lines_filled f o :
  1 <= o -> f o = true ->
  kept_lines f (Z.to_nat (o + 1)) = (o - 1) :: kept_lines f (Z.to_nat (o - 1)).
Proof.
  intros Ho Hf. replace (Z.to_nat (o + 1)) with (S (S (Z.to_nat (o - 1)))) by lia.
  cbn [kept_lines].
  replace (Z.of_nat (S (Z.to_nat (o - 1)))) with o by lia.
  rewrite Hf. f_equal. lia.
Qed.

Lemma kept_lines_filled_0 f : f 0 = true -> kept_lines f (Z.to_nat (0 + 1)) = [].
Proof.
  intros Hf. change (Z.to_nat (0 + 1)) with 1%nat. cbn [kept_lines].
  change (Z.of_nat 0) with 0. by rewrite Hf.
Qed.

Lemma length_kept_lines f n : (length (kept_lines f n) <= n)%nat.
Proof.
  induction n as [n IH] using lt_wf_ind. destruct n as [|n']; simpl; [lia|].
  destruct (f (Z.of_nat n')).
  - destruct n' as [|n'']; simpl; [lia|]. specialize (IH n''). lia.
  - simpl. specialize (IH n'). lia.
Qed.

(** The test of a line depends on the colours in the line only. *)
Lemma is_filled_same_line t y m o :
  BlockMap.wf t -> BlockMap.wf m -> m_w t = m_w m ->
  0 <= y < m_h t -> 0 <= o < m_h m ->
  (forall x, 0 <= x < m_w m -> BlockMap.get t x y = BlockMap.get m x o) ->
  BlockMap.is_filled t y = Some (filled_at m o).
Proof.
  intros Hwft Hwfm Hw Hy Ho Hsame. unfold filled_at.
  destruct (is_filled_spec t y Hwft Hy) as (r1 & -> & Ht1 & _).
  destruct (is_filled_spec m o Hwfm Ho) as (r2 & -> & Ht2 & _).
  simpl. f_equal.
  assert (BlockMap.filled_line t y <-> BlockMap.filled_line m o) as Hiff.
  { unfold BlockMap.filled_line. rewrite Hw. split; intros Hf x Hx.
    - rewrite <- Hsame by done. by apply Hf.
    - rewrite Hsame by done. by apply Hf. }
  destruct r1, r2; try done.
  - symmetry. apply Ht2, Hiff, Ht1. done.
  - apply Ht1, Hiff, Ht2. done.
Qed.

Lemma erase_step_unfold y t k :
  BlockMap.erase_step y (t, k) =
  f ← BlockMap.is_filled t y;
  if f : bool then m' ← BlockMap.shift t y; Some (m', k + 1) else Some (t, k).
Proof. done. Qed.

Lemma reverse_seqZ_S n :
  reverse (seqZ 0 (Z.of_nat (S n))) = Z.of_nat n :: reverse (seqZ 0 (Z.of_nat n)).
Proof. rewrite seqZ_S, reverse_app. done. Qed.

(** The loop of [eraseFilledLines] from line [n - 1] upwards, entered with
    [k] lines erased so far: the lines 0 .. n-1 of the current map [t] are
    [k] empty lines followed by the lines 0 .. n-1-k of the map [m] the call
    started with. *)
Lemma erase_loop_spec m :
  BlockMap.wf m -> 0 < m_w m ->
  forall (n : nat) t k,
    Z.of_nat n <= m_h m -> 0 <= k ->
    BlockMap.wf t -> m_w t = m_w m -> m_h t = m_h m ->
    (forall x r, 0 <= x < m_w m -> 0 <= r < Z.of_nat n ->
       BlockMap.get t x r =
       if decide (r < k) then Some BLACK else BlockMap.get m x (r - k)) ->
    let kept := kept_lines (filled_at m) (Z.to_nat (Z.of_nat n - k)) in
    exists t',
      for_each (reverse (seqZ 0 (Z.of_nat n))) BlockMap.erase_step (t, k) =
        Some (t', k + (0 `max` (Z.of_nat n - k) - Z.of_nat (length kept))) /\
      BlockMap.wf t' /\ m_w t' = m_w m /\ m_h t' = m_h m /\
      forall x r, 0 <= x < m_w m -> 0 <= r < m_h m ->
        BlockMap.get t' x r =
        if decide (Z.of_nat n <= r) then BlockMap.get t x r
        else match kept !! Z.to_nat (Z.of_nat n - 1 - r) with
             | Some o => BlockMap.get m x o
             | None => Some BLACK
             end.
Proof.
  intros Hwf Hw. induction n as [|n' IH]; intros t k Hn Hk Hwft Hwt Hht Hrows kept; subst kept.
  - exists t. simpl. rewrite kept_lines_nonpos by lia. simpl.
    split_and!; [f_equal; f_equal; lia|done..|].
    intros x r Hx Hr. rewrite decide_True by lia. done.
  - rewrite reverse_seqZ_S, for_each_cons.
    destruct (decide (Z.of_nat n' < k)) as [Htop|Hlow].
    + (* the line is one of the empty lines at the top *)
      rewrite erase_step_open; [|done|lia|].
      2:{ exists 0. split; [lia|]. rewrite Hrows by lia.
          by rewrite decide_True by lia. }
      rewrite mbind_Some_l.
      destruct (IH t k) as (t' & Hrun & Hwf' & Hw' & Hh' & Hget);
        [lia|done..| |].
      { intros x r Hx Hr. apply Hrows; lia. }
      exists t'. rewrite kept_lines_nonpos in * by lia.
      rewrite Hrun. split_and!; [f_equal; f_equal; simpl; lia|done..|].
      intros x r Hx Hr. rewrite Hget by done. simpl.
      destruct (decide (Z.of_nat n' <= r)) as [Hge|Hlt].
      * destruct (decide (Z.of_nat (S n') <= r)); [done|].
        assert (r = Z.of_nat n') as -> by lia.
        rewrite Hrows by lia. by rewrite decide_True by lia.
      * by rewrite decide_False by lia.
    + (* the line holds line [o] of the map the call started with *)
      remember (Z.of_nat n' - k) as o eqn:Hdef.
      assert (BlockMap.is_filled t (Z.of_nat n') = Some (filled_at m o)) as Hfill.
      { apply is_filled_same_line; [done|done|done|lia|lia|].
        intros x Hx. rewrite Hrows by lia. rewrite decide_False by lia.
        f_equal. lia. }
      replace (Z.of_nat (S n') - k) with (o + 1) in * by lia.
      destruct (filled_at m o) eqn:Hfo.
      * (* filled: shift, and go on one line further up *)
        destruct (shift_spec t (Z.of_nat n'))
          as (t1 & Hshift & Hwf1 & Hw1 & Hh1 & Hget1); [done|lia|].
        rewrite erase_step_unfold, Hfill, mbind_Some_l, Hshift, !mbind_Some_l.
        destruct (IH t1 (k + 1)) as (t' & Hrun & Hwf' & Hw' & Hh' & Hget);
          [lia|lia|done|lia|lia| |].
        { intros x r Hx Hr. rewrite Hget1 by lia.
          destruct (decide (r = 0)) as [->|Hr0].
          - by rewrite decide_True by lia.
          - rewrite decide_True by lia. rewrite Hrows by lia.
            destruct (decide (r - 1 < k)).
            + by rewrite decide_True by lia.
            + rewrite decide_False by lia. f_equal. lia. }
        exists t'. rewrite Hrun. replace (Z.of_nat n' - (k + 1)) with (o - 1) in * by lia.
        assert (forall x, 0 <= x < m_w m ->
                  BlockMap.get t' x (Z.of_nat n') =
                  if decide (1 <= o) then BlockMap.get m x (o - 1)
                  else Some BLACK) as Hline.
        { intros x Hx. rewrite Hget by lia. rewrite decide_True by lia.
          rewrite Hget1 by lia.
          destruct (decide (Z.of_nat n' = 0)) as [H0|H0].
          - rewrite decide_False by lia. done.
          - rewrite decide_True by lia. rewrite Hrows by lia.
            destruct (decide (1 <= o)).
            + rewrite decide_False by lia. f_equal. lia.
            + by rewrite decide_True by lia. }
        destruct (decide (1 <= o)) as [Ho1|Ho0].
        -- rewrite (kept_lines_filled _ o) by done.
           split_and!; [f_equal; f_equal; simpl; lia|done..|].
           intros x r Hx Hr. destruct (decide (Z.of_nat (S n') <= r)) as [Hge|Hlt].
           ++ rewrite Hget by done. rewrite decide_True by lia.
              rewrite Hget1 by lia. rewrite decide_False by lia.
              by rewrite decide_False by lia.
           ++ destruct (decide (r = Z.of_nat n')) as [->|Hne].
              ** rewrite Hline by done.
                 by replace (Z.to_nat (Z.of_nat (S n') - 1 - Z.of_nat n')) with 0%nat by lia.
              ** rewrite Hget by done. rewrite decide_False by lia.
                 replace (Z.to_nat (Z.of_nat (S n') - 1 - r))
                   with (S (Z.to_nat (Z.of_nat n' - 1 - r))) by lia.
                 done.
        -- assert (o = 0) as Ho by lia. rewrite Ho in *.
           rewrite kept_lines_filled_0 by done.
           rewrite kept_lines_nonpos in * by lia.
           split_and!; [f_equal; f_equal; simpl; lia|done..|].
           intros x r Hx Hr. destruct (decide (Z.of_nat (S n') <= r)) as [Hge|Hlt].
           ++ rewrite Hget by done. rewrite decide_True by lia.
              rewrite Hget1 by lia. rewrite decide_False by lia.
              by rewrite decide_False by lia.
           ++ destruct (decide (r = Z.of_nat n')) as [->|Hne].
              ** by rewrite Hline by done.
              ** rewrite Hget by done. rewrite decide_False by lia. done.
      * (* not filled: the line stays *)
        rewrite erase_step_unfold, Hfill, !mbind_Some_l.
        destruct (IH t k) as (t' & Hrun & Hwf' & Hw' & Hh' & Hget);
          [lia|done..| |].
        { intros x r Hx Hr. apply Hrows; lia. }
        exists t'. rewrite Hrun. rewrite <- Hdef in *.
        rewrite (kept_lines_open _ o) by (done || lia).
        split_and!; [f_equal; f_equal; simpl; lia|done..|].
        intros x r Hx Hr. rewrite Hget by done.
        destruct (decide (Z.of_nat (S n') <= r)) as [Hge|Hlt].
        -- by rewrite decide_True by lia.
        -- destruct (decide (r = Z.of_nat n')) as [->|Hne].
           ++ rewrite decide_True by lia. rewrite Hrows by lia.
              rewrite decide_False by lia.
              replace (Z.to_nat (Z.of_nat (S n') - 1 - Z.of_nat n')) with 0%nat by lia.
              simpl. f_equal. lia.
           ++ rewrite decide_False by lia.
              replace (Z.to_nat (Z.of_nat (S n') - 1 - r))
                with (S (Z.to_nat (Z.of_nat n' - 1 - r))) by lia.
              done.
Qed.

Lemma downto_0_height h :
  0 <= h <= Int.INT_MAX ->
  downto_0 (Int.to_int (Int.to_size_t (h - 1))) =
  reverse (seqZ 0 (Z.of_nat (Z.to_nat h))).
Proof.
  intros Hh. unfold downto_0, Int.INT_MAX in *. rewrite Z2Nat.id by lia.
  destruct (decide (h = 0)) as [->|Hne]; [done|].
  rewrite (to_size_t_small (h - 1)) by (unfold Int.SIZE_MAX; lia).
  rewrite to_int_small by (unfold Int.INT_MIN, Int.INT_MAX; lia).
  do 2 f_equal. lia.
Qed.

(** X16: what one call of [eraseFilledLines] does to any well-formed map of
    positive width.  Going up from the lowest line, a line that is not
    filled is kept; a filled line is dropped and the line above it is kept
    without being tested.  The kept lines, in their order, end at the bottom
    of the map, the lines above them are empty, and the number returned is
    the number of dropped lines. *)
Theorem eraseFilledLines_line_by_line (m : BlockMap) :
  BlockMap.wf m -> 0 < m_w m ->
  let kept := kept_lines (filled_at m) (Z.to_nat (m_h m)) in
  exists m',
    BlockMap.eraseFilledLines m = Some (m', m_h m - Z.of_nat (length kept)) /\
    BlockMap.wf m' /\ m_w m' = m_w m /\ m_h m' = m_h m /\
    forall x r, 0 <= x < m_w m -> 0 <= r < m_h m ->
      BlockMap.get m' x r =
      match kept !! Z.to_nat (m_h m - 1 - r) with
      | Some o => BlockMap.get m x o
      | None => Some BLACK
      end.
Proof.
  intros Hwf Hw kept. subst kept. pose proof Hwf as (_ & Hhm & _).
  destruct (erase_loop_spec m Hwf Hw (Z.to_nat (m_h m)) m 0)
    as (m' & Hrun & Hwf' & Hw' & Hh' & Hget); [lia|lia|done..| |].
  { intros x r Hx Hr. rewrite decide_False by lia. f_equal. lia. }
  rewrite Z2Nat.id, Z.sub_0_r in * by lia.
  exists m'. unfold BlockMap.eraseFilledLines.
  rewrite downto_0_height, Z2Nat.id by (done || lia). rewrite Hrun.
  split_and!; [f_equal; f_equal; lia|done..|].
  intros x r Hx Hr. rewrite Hget by done. by rewrite decide_False by lia.
Qed.

Lemma eraseFilledLines_line_by_line_witness :
  exists m',
    BlockMap.eraseFilledLines
      (mkBlockMap 1 4 [BLUE; BLACK; RED; GREEN]) = Some (m', 2) /\
    BlockMap.get m' 0 3 = Some RED /\ BlockMap.get m' 0 2 = Some BLACK.
Proof.
  destruct (eraseFilledLines_line_by_line
              (mkBlockMap 1 4 [BLUE; BLACK; RED; GREEN]))
    as (m' & Hrun & _ & _ & _ & Hget).
  - unfold BlockMap.wf. split_and!; vm_compute; congruence.
  - simpl. lia.
  - exists m'. split; [exact Hrun|].
    split; [apply (Hget 0 3)|apply (Hget 0 2)]; simpl; lia.
Defined.

(** ** draw *)

Lemma draw_cell_unfold m x idx out :
  Draw.draw_cell m x (idx, out) =
  c ← m_blocks m !! Z.to_nat idx;
  Some (Int.to_size_t (idx + 1), out ++ Draw.PrintColorCode c ++ [Draw.CELL]).
Proof. done. Qed.

Lemma draw_line_unfold m y idx out :
  Draw.draw_line m y (idx, out) =
  st' ← for_each (seqZ 0 (m_w m)) (Draw.draw_cell m) (idx, out ++ Draw.printWall 1);
  Some (st'.1, st'.2 ++ Draw.printWall 1 ++ Draw.newline).
Proof. done. Qed.

Lemma bind_one {A B : Type} (f : A -> list B) x : [x] ≫= f = f x.
Proof. rewrite bind_cons. apply app_nil_r. Qed.

Lemma for_each_nil {S : Type} (body : Z -> S -> option S) s :
  for_each [] body s = Some s.
Proof. done. Qed.

Lemma draw_cells m y out k :
  BlockMap.wf m -> 0 <= y < m_h m -> 0 <= k -> k <= m_w m ->
  for_each (seqZ 0 k) (Draw.draw_cell m) (y * m_w m, out) =
  Some (y * m_w m + k,
        out ++ (seqZ 0 k ≫= fun x =>
                  Draw.PrintColorCode (default BLACK (BlockMap.get m x y)) ++
                  [Draw.CELL])).
Proof.
  intros Hwf Hy Hk. revert k Hk. apply (natlike_ind (fun k => k <= m_w m -> _)).
  - intros _. rewrite seqZ_nil by lia. simpl.
    by rewrite Z.add_0_r, app_nil_r.
  - intros k Hk IH Hle. unfold Z.succ.
    rewrite seqZ_snoc, for_each_app, IH by lia.
    rewrite mbind_Some_l, for_each_cons, draw_cell_unfold.
    destruct (index_in_field m k y) as [Hi Hlt]; [done|lia|done|].
    destruct (get_defined m k y) as [c Hc]; [done|lia|done|].
    pose proof Hc as Hc'. unfold BlockMap.get in Hc'. rewrite Hi in Hc'.
    rewrite Hc', !mbind_Some_l, for_each_nil.
    destruct Hwf as (Hwm & Hhm & _). unfold Int.INT_MAX in *.
    rewrite to_size_t_small by (unfold Int.SIZE_MAX; nia).
    rewrite bind_app, bind_one, Hc. cbn [default].
    rewrite <- !app_assoc. do 2 f_equal. lia.
Qed.

Lemma draw_lines m out j :
  BlockMap.wf m -> 0 <= j -> j <= m_h m ->
  for_each (seqZ 0 j) (Draw.draw_line m) (0, out) =
  Some (j * m_w m,
        out ++ (seqZ 0 j ≫= fun y =>
          Draw.printWall 1 ++
          (upto (m_w m) ≫= fun x =>
             Draw.PrintColorCode (default BLACK (BlockMap.get m x y)) ++
             [Draw.CELL]) ++
          Draw.printWall 1 ++ Draw.newline)).
Proof.
  intros Hwf Hj. revert j Hj. apply (natlike_ind (fun j => j <= m_h m -> _)).
  - intros _. rewrite seqZ_nil by lia. simpl. by rewrite app_nil_r.
  - intros j Hj IH Hle. unfold Z.succ.
    rewrite seqZ_snoc, for_each_app, IH by lia.
    rewrite mbind_Some_l, for_each_cons, draw_line_unfold.
    pose proof Hwf as (Hwm & _).
    rewrite draw_cells by (done || lia). rewrite !mbind_Some_l, for_each_nil.
    cbn [fst snd].
    rewrite bind_app, bind_one. unfold upto.
    rewrite <- !app_assoc. do 2 f_equal. lia.
Qed.

Lemma bind_const_replicate {A B : Type} (l : list A) (c : B) :
  l ≫= (fun _ => [c]) = replicate (length l) c.
Proof.
  induction l as [|a l IH]; [done|].
  rewrite bind_cons, IH. done.
Qed.

Lemma printWall_cells n :
  0 <= n -> Draw.printWall n = wall_cells (Z.to_nat n).
Proof.
  intros Hn. unfold Draw.printWall, wall_cells, upto.
  rewrite bind_const_replicate, length_seqZ. done.
Qed.

(** X17: on a well-formed map [draw] reads the vector inside its bounds and
    writes the frame of the field, spelled out item by item: the two
    sequences that clear the screen and send the cursor to the top left; a
    wall of [m_w + 2] white cells; then for each line of the field, from
    the top, a white wall cell, the cells of the line from left to right,
    each in the colour that [get] reads at that column and line, and a
    white wall cell; then a second wall of [m_w + 2] cells; every line ends
    with the reset sequence and the end of line.  The running subscript of
    [draw] and the subscript computed by [get] name the same cells. *)
Theorem draw_shows_field (m : BlockMap) :
  BlockMap.wf m -> Draw.draw m = Some (expected_frame m).
Proof.
  intros Hwf. pose proof Hwf as (Hwm & Hhm & _). unfold Int.INT_MAX in *.
  unfold Draw.draw, expected_frame, upto.
  rewrite to_size_t_small by (unfold Int.SIZE_MAX; lia).
  rewrite draw_lines by (done || lia). rewrite mbind_Some_l. cbn [snd].
  rewrite printWall_cells by lia.
  rewrite <- !app_assoc. reflexivity.
Qed.

Lemma draw_shows_field_witness :
  Draw.draw (mkBlockMap 2 1 [RED; BLACK]) =
  Some [Str (String "027" "[2J"); Str (String "027" "[0;0H");
        Str (String "027" "[4"); Num 7; Str "m"; glyph; glyph; glyph; glyph;
        Str (String "027" "[0m"); Endl;
        Str (String "027" "[4"); Num 7; Str "m"; glyph;
        Str (String "027" "[4"); Num 1; Str "m"; glyph;
        Str (String "027" "[4"); Num 0; Str "m"; glyph;
        Str (String "027" "[4"); Num 7; Str "m"; glyph;
        Str (String "027" "[0m"); Endl;
        Str (String "027" "[4"); Num 7; Str "m"; glyph; glyph; glyph; glyph;
        Str (String "027" "[0m"); Endl].
Proof.
  rewrite (draw_shows_field (mkBlockMap 2 1 [RED; BLACK])).
  - reflexivity.
  - unfold BlockMap.wf. split_and!; vm_compute; congruence.
Defined.

(** ** The generator *)

(** X18: [operator()] builds a piece for every value of the twister: the
    piece has one of the seven shapes, stands at the default position and is
    not rotated, so the final [else] branch with [assert(false)] is never
    taken; and each of the seven shapes is built for some value. *)
Theorem generator_builds_every_shape (g : RandomBlockGenerator.t) :
  (forall v, exists s,
     RandomBlockGenerator.call g v =
     Some (mkBlock s (RandomBlockGenerator.m_x g) (RandomBlockGenerator.m_y g)
             ROT0)) /\
  (forall s, exists v, 0 <= v < 7 /\
     RandomBlockGenerator.call g v =
     Some (mkBlock s (RandomBlockGenerator.m_x g) (RandomBlockGenerator.m_y g)
             ROT0)).
Proof.
  split; [intros v; apply call_defined|].
  intros s. destruct s;
    [exists 0|exists 1|exists 2|exists 3|exists 4|exists 5|exists 6];
    (split; [lia|reflexivity]).
Qed.
